(** * ifql: the stddev aggregate, the storage source and the toHTTP sink

    A shallow embedding of three Go files of the repository:
    - [functions/stddev.go] (module [stddev]),
    - [query/execute/source.go] (module [source]),
    - the file of the [toHTTP] function (module [to_http]).

    Go's [float64] is Rocq's primitive binary64 float, [int64] is [Z] with
    the wrap-around of the machine written out, strings are [string], Go
    maps with string keys are [gmap string _], slices are lists. *)

From Stdlib Require Import ZArith QArith Qabs Qfield Lqa Lia Ascii String.
From Stdlib Require Floats.
From stdpp Require Import base option list gmap strings sorting.

(** ** Part I: definitions *)

(** *** functions/stddev.go *)
Module stddev.
Import PrimFloat.
Local Open Scope float_scope.

(** [type StddevAgg struct { n, m2, mean float64 }] *)
Record StddevAgg : Type := mkStddevAgg { n : float; m2 : float; mean : float }.

(** The value of [new(StddevAgg)]: every field is Go's zero value. *)
Definition new_StddevAgg : StddevAgg := mkStddevAgg 0 0 0.

(** [func (a *StddevAgg) reset()] *)
Definition reset (a : StddevAgg) : StddevAgg :=
  {| n := 0; m2 := 0; mean := 0 |}.

(** [NewIntAgg], [NewUIntAgg] and [NewFloatAgg] reset the receiver and hand
    it back as the accumulator. *)
Definition NewIntAgg (a : StddevAgg) : StddevAgg := reset a.
Definition NewUIntAgg (a : StddevAgg) : StddevAgg := reset a.
Definition NewFloatAgg (a : StddevAgg) : StddevAgg := reset a.

(** Go's conversion [float64(v)] of an integer: the nearest binary64 value,
    ties to even. *)
Definition float64_of_Z (v : Z) : float :=
  FloatOps.SF2Prim (SpecFloat.binary_normalize FloatOps.prec FloatOps.emax v 0 false).

(** The body of the three [for _, v := range vs] loops, on a value already
    converted to [float64]:
<<
    a.n++
    delta = v - a.mean
    a.mean += delta / a.n
    delta2 = v - a.mean
    a.m2 += delta * delta2
>>
    Each operation rounds on its own (no fused multiply-add, as on amd64). *)
Definition update (a : StddevAgg) (v : float) : StddevAgg :=
  let n' := n a + 1 in
  let delta := v - mean a in
  let mean' := mean a + delta / n' in
  let delta2 := v - mean' in
  {| n := n'; m2 := m2 a + delta * delta2; mean := mean' |}.

(** [func (a *StddevAgg) DoFloat(vs []float64)] *)
Definition DoFloat (a : StddevAgg) (vs : list float) : StddevAgg :=
  fold_left update vs a.

(** [func (a *StddevAgg) DoInt(vs []int64)] *)
Definition DoInt (a : StddevAgg) (vs : list Z) : StddevAgg :=
  fold_left (fun a v => update a (float64_of_Z v)) vs a.

(** [func (a *StddevAgg) DoUInt(vs []uint64)] *)
Definition DoUInt (a : StddevAgg) (vs : list Z) : StddevAgg :=
  fold_left (fun a v => update a (float64_of_Z v)) vs a.

(** [func (a *StddevAgg) ValueFloat() float64] *)
Definition ValueFloat (a : StddevAgg) : float :=
  if n a <? 2 then nan else sqrt (m2 a / (n a - 1)).

(** One [Do*] call of the engine: a column slice of one of the numeric
    types the aggregate accepts. *)
Inductive slice : Type :=
| Floats (vs : list float)
| Ints (vs : list Z)
| UInts (vs : list Z).

Definition Do (a : StddevAgg) (s : slice) : StddevAgg :=
  match s with
  | Floats vs => DoFloat a vs
  | Ints vs => DoInt a vs
  | UInts vs => DoUInt a vs
  end.

Definition slice_len (s : slice) : nat :=
  match s with Floats vs => length vs | Ints vs | UInts vs => length vs end.

(** How many values a sequence of [Do*] calls consumes. *)
Definition consumed (ss : list slice) : nat :=
  fold_right (fun s k => (slice_len s + k)%nat) 0%nat ss.

(** A fresh accumulator driven through a sequence of [Do*] calls, then read. *)
Definition aggregate (ss : list slice) : StddevAgg :=
  fold_left Do ss (reset new_StddevAgg).

Definition stddev (ss : list slice) : float := ValueFloat (aggregate ss).

(** **** The exact reading of the accumulator

    The real number a finite [float64] stands for, as a rational:
    [(-1)^s * m * 2^e]; [None] for the infinities and NaN. *)
Definition F2Q (f : float) : option Q :=
  match FloatOps.Prim2SF f with
  | SpecFloat.S754_zero _ => Some 0%Q
  | SpecFloat.S754_finite s m e =>
      let mag := match e with
                 | Z0 => Z.pos m # 1
                 | Zpos p => Z.pos (m * 2 ^ p) # 1
                 | Zneg p => Z.pos m # 2 ^ p
                 end in
      Some (if s then Qopp mag else mag)
  | _ => None
  end.

(** The recurrence as the specification writes it, over exact numbers:
    [n <- n+1; d <- x-mu; mu <- mu+d/n; d2 <- x-mu; M2 <- M2+d*d2]. *)
Record WelfordQ : Type := mkWelfordQ { qn : Q; qm2 : Q; qmean : Q }.

Definition welford_step (w : WelfordQ) (x : Q) : WelfordQ :=
  let n' := (qn w + 1)%Q in
  let d := (x - qmean w)%Q in
  let mu' := (qmean w + d / n')%Q in
  let d2 := (x - mu')%Q in
  {| qn := n'; qm2 := (qm2 w + d * d2)%Q; qmean := mu' |}.

Definition welford (xs : list Q) : WelfordQ :=
  fold_left welford_step xs (mkWelfordQ 0 0 0).

Definition Qsum (xs : list Q) : Q := fold_right Qplus 0%Q xs.

(** [mean(xs)] and [Σ (x_i - mean(xs))²] of the specification. *)
Definition Qmean (xs : list Q) : Q := (Qsum xs / inject_Z (Z.of_nat (length xs)))%Q.

Definition sum_sq_dev (xs : list Q) : Q :=
  let mu := Qmean xs in Qsum (map (fun x => (x - mu) * (x - mu))%Q xs).

(** [a = b] within relative error [tol] (relative to [b]). *)
Definition within_rel (tol a b : Q) : Prop := (Qabs (a - b) <= tol * Qabs b)%Q.

(** The values a sequence of [Do*] calls folds in, as the [float64]s the
    loops work on. *)
Definition slice_values (s : slice) : list float :=
  match s with
  | Floats vs => vs
  | Ints vs | UInts vs => map float64_of_Z vs
  end.

Definition values (ss : list slice) : list float := flat_map slice_values ss.

(** The identity of the specification read on the value the code returns:
    [stddev(xs)² · (n-1) = Σ (x_i - mean(xs))²] within [1e-9], every number
    taken exactly. A value that is not finite satisfies no such identity. *)
Definition welford_identity_1e9 (ss : list slice) : Prop :=
  match F2Q (stddev ss), mapM F2Q (values ss) with
  | Some v, Some qs =>
      within_rel (1 # 1000000000)
        (v * v * inject_Z (Z.of_nat (length qs) - 1)) (sum_sq_dev qs)
  | _, _ => False
  end.

(** A float operation did not round on these arguments: its result stands
    for the exact result on what the arguments stand for. *)
Definition exact_op (opf : float -> float -> float) (opq : Q -> Q -> Q)
    (x y : float) : bool :=
  match F2Q x, F2Q y, F2Q (opf x y) with
  | Some a, Some b, Some c => Qeq_bool c (opq a b)
  | _, _, _ => false
  end.

(** None of the five operations of one [update] rounds. *)
Definition exact_update (a : StddevAgg) (v : float) : bool :=
  let n' := n a + 1 in
  let delta := v - mean a in
  let mean' := mean a + delta / n' in
  let delta2 := v - mean' in
  exact_op add Qplus (n a) 1
  && exact_op sub Qminus v (mean a)
  && exact_op div Qdiv delta n'
  && exact_op add Qplus (mean a) (delta / n')
  && exact_op sub Qminus v mean'
  && exact_op mul Qmult delta delta2
  && exact_op add Qplus (m2 a) (delta * delta2).

Fixpoint exact_run (a : StddevAgg) (vs : list float) : bool :=
  match vs with
  | [] => true
  | v :: vs' => exact_update a v && exact_run (update a v) vs'
  end.

(** [a.n++] *)
Definition incr (x : float) : float := x + 1.

(** A float stands for a rational; an accumulator stands for a state of
    the exact recurrence. *)
Definition repr (f : float) (q : Q) : Prop :=
  exists q', F2Q f = Some q' /\ (q' == q)%Q.

Definition repr_agg (a : StddevAgg) (w : WelfordQ) : Prop :=
  repr (n a) (qn w) /\ repr (m2 a) (qm2 w) /\ repr (mean a) (qmean w).

Definition Qlen {A} (xs : list A) : Q := inject_Z (Z.of_nat (length xs)).

End stddev.

(** *** query/execute/source.go *)
Module source.
Local Open Scope Z_scope.

(** [type Time int64] and [type Duration int64]: nanosecond counts. *)
Definition Time : Type := Z.
Definition Duration : Type := Z.

Definition is_int64 (z : Z) : Prop := - 2 ^ 63 <= z < 2 ^ 63.

(** The value an [int64] holds after Go's wrapping [+] or [-]. *)
Definition wrap64 (z : Z) : Z := (z + 2 ^ 63) mod 2 ^ 64 - 2 ^ 63.

(** The fields of [execute.Window] and [execute.Bounds] the source reads. *)
Record Window : Type := mkWindow { Every : Duration; Period : Duration }.
Record Bounds : Type := mkBounds { Start : Time; Stop : Time }.

Section Source.
(** What the file takes from its environment: errors, blocks, read
    specifications, dataset ids, the subscribed transformations, and the
    [StorageReader] with its state. *)
Context {Err Block ReadSpec DatasetID Transformation Reader : Type}.

(** [StorageReader.Read(ctx, trace, readSpec, start, stop) (BlockIterator, error)]:
    the reader moves to a new state and answers with an error or with the
    blocks its iterator yields. *)
Variable Read : Reader -> ReadSpec -> Time -> Time -> Reader * (Err + list Block).

(** [type storageSource struct] *)
Record storageSource : Type := mkStorageSource {
  id : DatasetID;
  reader : Reader;
  readSpec : ReadSpec;
  window : Window;
  bounds : Bounds;
  ts : list Transformation;
  currentTime : Time
}.

(** [func NewStorageSource(id, r, readSpec, bounds, w, currentTime) Source] *)
Definition NewStorageSource (i : DatasetID) (r : Reader) (rs : ReadSpec)
    (b : Bounds) (w : Window) (now : Time) : storageSource :=
  {| id := i; reader := r; readSpec := rs; window := w; bounds := b;
     ts := []; currentTime := now |}.

(** [func (s *storageSource) AddTransformation(t Transformation)] *)
Definition AddTransformation (s : storageSource) (t : Transformation) : storageSource :=
  {| id := id s; reader := reader s; readSpec := readSpec s; window := window s;
     bounds := bounds s; ts := ts s ++ [t]; currentTime := currentTime s |}.

(** What a run does to the world outside the source, in order. *)
Inductive event : Type :=
| EvRead (start stop : Time)
| EvLog (e : Err)
| EvProcess (t : Transformation) (d : DatasetID) (b : Block)
| EvUpdateProcessingTime (t : Transformation) (d : DatasetID)
| EvUpdateWatermark (t : Transformation) (d : DatasetID) (mark : Time)
| EvFinish (t : Transformation) (d : DatasetID) (err : option Err).

(** [func (s *storageSource) Next(ctx, trace) (BlockIterator, Time, bool)]:
    the source after the call (its current time advanced by [Every], the
    reader in its new state), what the call did, and its three results. *)
Definition advance (s : storageSource) (r : Reader) : storageSource :=
  {| id := id s; reader := r; readSpec := readSpec s; window := window s;
     bounds := bounds s; ts := ts s;
     currentTime := wrap64 (currentTime s + Every (window s)) |}.

Definition Next (s : storageSource) :
    storageSource * list event * (list Block * Time * bool) :=
  let start := wrap64 (currentTime s - Period (window s)) in
  let stop := currentTime s in
  (* s.currentTime = s.currentTime + Time(s.window.Every), before the test *)
  if Stop (bounds s) <? stop then (advance s (reader s), [], ([], 0, false))
  else
    match Read (reader s) (readSpec s) start stop with
    | (r, inl err) => (advance s r, [EvRead start stop; EvLog err], ([], 0, false))
    | (r, inr bi) => (advance s r, [EvRead start stop], (bi, stop, true))
    end.

(** What [Finish(s.id, nil)] on every subscriber does. *)
Definition finish_all (s : storageSource) : list event :=
  map (fun t => EvFinish t (id s) None) (ts s).

(** The body of the [for] loop of [Run] for one batch. *)
Definition forward (s : storageSource) (blocks : list Block) (mark : Time) : list event :=
  flat_map (fun b =>
    flat_map (fun t => [EvProcess t (id s) b; EvUpdateProcessingTime t (id s)]) (ts s))
    blocks
  ++ map (fun t => EvUpdateWatermark t (id s) mark) (ts s).

(** [func (s *storageSource) Run(ctx context.Context)]: the loop runs for at
    most [fuel] batches; the flag tells whether [Run] returned. *)
Fixpoint Run (fuel : nat) (s : storageSource) : list event * bool :=
  match fuel with
  | O => ([], false)
  | S fuel' =>
      let '(s', evs, (blocks, mark, ok)) := Next s in
      if ok : bool then
        let '(rest, returned) := Run fuel' s' in
        (evs ++ forward s blocks mark ++ rest, returned)
      else (evs ++ finish_all s, true)
  end.

(** The marks passed to [UpdateWatermark], and the windows asked of
    [Read], in the order of the calls. *)
Definition watermarks (tr : list event) : list Time :=
  omap (fun ev => match ev with EvUpdateWatermark _ _ m => Some m | _ => None end) tr.

Definition reads (tr : list event) : list (Time * Time) :=
  omap (fun ev => match ev with EvRead a b => Some (a, b) | _ => None end) tr.

Definition is_log (ev : event) : bool :=
  match ev with EvLog _ => true | _ => false end.

Definition is_finish (ev : event) : bool :=
  match ev with EvFinish _ _ _ => true | _ => false end.

(** The source with another lower bound. *)
Definition with_Start (s : storageSource) (v : Time) : storageSource :=
  {| id := id s; reader := reader s; readSpec := readSpec s; window := window s;
     bounds := mkBounds v (Stop (bounds s)); ts := ts s;
     currentTime := currentTime s |}.

End Source.

(** A reader over no state that fails every read with the given error, and
    one that answers every read with no block. *)
Definition failing_reader (e : string) : unit -> unit -> Time -> Time -> unit * (string + list unit) :=
  fun r _ _ _ => (r, inl e).
Definition empty_reader : unit -> unit -> Time -> Time -> unit * (string + list unit) :=
  fun r _ _ _ => (r, inr []).

Definition example_source (w : Window) (b : Bounds) (now : Time) :
    @storageSource unit nat nat unit :=
  AddTransformation (AddTransformation (NewStorageSource 7%nat tt tt b w now) 1%nat) 2%nat.

(** **** The registry of sources *)
Section Registry.
(** [type CreateSource func(...) Source]; a Go func value may be [nil]. *)
Context {CreateSource : Type}.

(** [var procedureToSource = make(map[plan.ProcedureKind]CreateSource)]:
    a kind that is not in the map reads as [nil]. *)
Definition registry : Type := gmap string (option CreateSource).

(** [func RegisterSource(k plan.ProcedureKind, c CreateSource)]: [None] is
    the panic on a duplicate registration. *)
Definition RegisterSource (reg : gmap string (option CreateSource)) (k : string)
    (c : option CreateSource) : option (gmap string (option CreateSource)) :=
  match reg !! k with
  | Some (Some _) => None
  | _ => Some (<[k := c]> reg)
  end.

(** The registrations of the [init] functions of a program, in order. *)
Definition register_all (regs : list (string * CreateSource))
    (reg : gmap string (option CreateSource)) :
    option (gmap string (option CreateSource)) :=
  fold_left (fun acc kc => reg ← acc; RegisterSource reg kc.1 (Some kc.2))
            regs (Some reg).
(** A kind is free when it reads as [nil]. *)
Definition free (reg : gmap string (option CreateSource)) (k : string) : Prop :=
  reg !! k = None \/ reg !! k = Some None.

End Registry.

End source.

(** *** The toHTTP function *)
Module to_http.
Import PrimFloat.
Local Open Scope Z_scope.
Local Open Scope string_scope.

Definition error : Type := string.

Definition ToHTTPKind : string := "toHTTP".

(** [DefaultToHTTPTimeout = 1 * time.Second], in nanoseconds. *)
Definition Second : Z := 1000000000.
Definition DefaultToHTTPTimeout : Z := 1 * Second.

Definition DefaultToHTTPUserAgent : string := "ifqld/dev".

(** Modelled from the spec: the column labels [execute.DefaultTimeColLabel]
    and [execute.DefaultValueColLabel] of package [execute], which the
    specification gives as [_time] and [_value]. *)
Definition DefaultTimeColLabel : string := "_time".
Definition DefaultValueColLabel : string := "_value".

(** [type ToHTTPOpSpec struct]; [time.Duration] is an [int64] of nanoseconds. *)
Record ToHTTPOpSpec : Type := mkToHTTPOpSpec {
  Addr : string;
  Method : string;
  Name : string;
  Headers : gmap string string;
  URLParams : gmap string string;
  Timeout : Z;
  NoKeepAlive : bool;
  TimeColumn : string;
  TagColumns : list string;
  ValueColumns : list string
}.

(** The value of [new(ToHTTPOpSpec)]. *)
Definition new_ToHTTPOpSpec : ToHTTPOpSpec :=
  mkToHTTPOpSpec "" "" "" ∅ ∅ 0 false "" [] [].

Definition set_Addr (v : string) (o : ToHTTPOpSpec) : ToHTTPOpSpec :=
  mkToHTTPOpSpec v (Method o) (Name o) (Headers o) (URLParams o) (Timeout o)
    (NoKeepAlive o) (TimeColumn o) (TagColumns o) (ValueColumns o).
Definition set_Method (v : string) (o : ToHTTPOpSpec) : ToHTTPOpSpec :=
  mkToHTTPOpSpec (Addr o) v (Name o) (Headers o) (URLParams o) (Timeout o)
    (NoKeepAlive o) (TimeColumn o) (TagColumns o) (ValueColumns o).
Definition set_Name (v : string) (o : ToHTTPOpSpec) : ToHTTPOpSpec :=
  mkToHTTPOpSpec (Addr o) (Method o) v (Headers o) (URLParams o) (Timeout o)
    (NoKeepAlive o) (TimeColumn o) (TagColumns o) (ValueColumns o).
Definition set_Headers (v : gmap string string) (o : ToHTTPOpSpec) : ToHTTPOpSpec :=
  mkToHTTPOpSpec (Addr o) (Method o) (Name o) v (URLParams o) (Timeout o)
    (NoKeepAlive o) (TimeColumn o) (TagColumns o) (ValueColumns o).
Definition set_Timeout (v : Z) (o : ToHTTPOpSpec) : ToHTTPOpSpec :=
  mkToHTTPOpSpec (Addr o) (Method o) (Name o) (Headers o) (URLParams o) v
    (NoKeepAlive o) (TimeColumn o) (TagColumns o) (ValueColumns o).
Definition set_TimeColumn (v : string) (o : ToHTTPOpSpec) : ToHTTPOpSpec :=
  mkToHTTPOpSpec (Addr o) (Method o) (Name o) (Headers o) (URLParams o) (Timeout o)
    (NoKeepAlive o) v (TagColumns o) (ValueColumns o).
Definition set_TagColumns (v : list string) (o : ToHTTPOpSpec) : ToHTTPOpSpec :=
  mkToHTTPOpSpec (Addr o) (Method o) (Name o) (Headers o) (URLParams o) (Timeout o)
    (NoKeepAlive o) (TimeColumn o) v (ValueColumns o).
Definition set_ValueColumns (v : list string) (o : ToHTTPOpSpec) : ToHTTPOpSpec :=
  mkToHTTPOpSpec (Addr o) (Method o) (Name o) (Headers o) (URLParams o) (Timeout o)
    (NoKeepAlive o) (TimeColumn o) (TagColumns o) v.

(** **** What the file uses of Go's library *)

(** [strings.ToUpper], on the ASCII letters. *)
Definition upper_ascii (c : ascii) : ascii :=
  let k := nat_of_ascii c in
  if (97 <=? k)%nat && (k <=? 122)%nat then ascii_of_nat (k - 32) else c.

Fixpoint ToUpper (s : string) : string :=
  match s with
  | EmptyString => EmptyString
  | String c s' => String (upper_ascii c) (ToUpper s')
  end.

(** [sort.Strings]: the slice in increasing byte-wise order. *)
Fixpoint insert_sorted (x : string) (l : list string) : list string :=
  match l with
  | [] => [x]
  | y :: l' => if String.leb x y then x :: l else y :: insert_sorted x l'
  end.

Definition sort_Strings (l : list string) : list string :=
  fold_right insert_sorted [] l.

(** [sort.Search(n, f)]: the binary search of Go's library,
<<
    i, j := 0, n
    for i < j { h := int(uint(i+j) >> 1); if !f(h) { i = h + 1 } else { j = h } }
    return i
>>
    run for at most [fuel] rounds ([n] rounds are enough: each halves [j - i]). *)
Fixpoint Search_loop (fuel : nat) (f : nat -> bool) (i j : nat) : nat :=
  match fuel with
  | O => i
  | S fuel' =>
      if (i <? j)%nat then
        let h := ((i + j) / 2)%nat in
        if f h then Search_loop fuel' f i h else Search_loop fuel' f (h + 1)%nat j
      else i
  end.

Definition sort_Search (n : nat) (f : nat -> bool) : nat := Search_loop n f 0%nat n.

(** [sort.SearchStrings(a, x) = sort.Search(len(a), func(i) { return a[i] >= x })] *)
Definition SearchStrings (a : list string) (x : string) : nat :=
  sort_Search (length a) (fun i => String.leb x (nth i a "")).

(** **** The arguments of a function call

    Modelled from the spec: [query.Arguments] and its getters, of package
    [query]. A getter finds the argument or reports it absent ([ok = false]);
    an argument of another type than the one asked for is an error
    ("wrong type", "missing required argument"). *)
Inductive Value : Type :=
| VString (s : string)
| VInt (i : Z)
| VBool (b : bool)
| VDuration (d : Z)
| VStrings (elems : list string)
| VInts (elems : list Z).

Definition Arguments : Type := gmap string Value.

Definition GetRequiredString (args : gmap string Value) (name : string) : error + string :=
  match args !! name with
  | Some (VString s) => inr s
  | Some _ => inl ("keyword argument " ++ name ++ " should be of kind string")
  | None => inl ("missing required keyword argument " ++ name)
  end.

Definition GetString (args : gmap string Value) (name : string) : error + (string * bool) :=
  match args !! name with
  | Some (VString s) => inr (s, true)
  | Some _ => inl ("keyword argument " ++ name ++ " should be of kind string")
  | None => inr ("", false)
  end.

Definition GetDuration (args : gmap string Value) (name : string) : error + (Z * bool) :=
  match args !! name with
  | Some (VDuration d) => inr (d, true)
  | Some _ => inl ("keyword argument " ++ name ++ " should be of kind duration")
  | None => inr (0, false)
  end.

(** [args.GetArray(name, semantic.String)] *)
Definition GetArray_String (args : gmap string Value) (name : string) :
    error + (list string * bool) :=
  match args !! name with
  | Some (VStrings l) => inr (l, true)
  | Some _ => inl ("keyword argument " ++ name ++ " should be of an array of kind string")
  | None => inr ([], false)
  end.

(** **** [ReadArgs] *)

(** [func (o *ToHTTPOpSpec) ReadArgs(args query.Arguments) error]: the
    receiver after the call and the error returned. On an error of a
    getter the field assigned in the same statement holds the getter's
    zero value. *)
Definition ReadArgs (o : ToHTTPOpSpec) (args : gmap string Value) :
    ToHTTPOpSpec * option error :=
  match GetRequiredString args "addr" with
  | inl err => (set_Addr "" o, Some err)
  | inr addr =>
  let o := set_Addr addr o in
  match GetRequiredString args "name" with
  | inl err => (set_Name "" o, Some err)
  | inr name =>
  let o := set_Name name o in
  match GetString args "method" with
  | inl err => (set_Method "" o, Some err)
  | inr (method, ok) =>
  let o := set_Method method o in
  let o := if ok then o else set_Method "POST" o in
  let o := set_Method (ToUpper (Method o)) o in
  match GetDuration args "timeout" with
  | inl err => (o, Some err)
  | inr (timeout, ok) =>
  let o := if ok then set_Timeout timeout o else set_Timeout DefaultToHTTPTimeout o in
  match GetString args "time_column" with
  | inl err => (set_TimeColumn "" o, Some err)
  | inr (tc, ok) =>
  let o := set_TimeColumn tc o in
  let o := if ok then o else set_TimeColumn DefaultTimeColLabel o in
  match GetArray_String args "tag_columns" with
  | inl err => (o, Some err)
  | inr (tagColumns, ok) =>
  (* o.TagColumns = o.TagColumns[:0] *)
  let o := set_TagColumns [] o in
  let o :=
    if ok then
      let o := fold_left (fun o c => set_TagColumns (TagColumns o ++ [c]) o) tagColumns o in
      set_TagColumns (sort_Strings (TagColumns o)) o
    else o in
  match GetArray_String args "value_columns" with
  | inl err => (o, Some err)
  | inr (valueColumns, ok) =>
  (* o.ValueColumns = o.ValueColumns[:0] *)
  let o := set_ValueColumns [] o in
  let o :=
    if negb ok || (length valueColumns =? 0)%nat then
      set_ValueColumns (ValueColumns o ++ [DefaultValueColLabel]) o
    else
      (* o.TagColumns = append(o.ValueColumns, valueColumns.Get(i).Str()) *)
      let o := fold_left (fun o c => set_TagColumns (ValueColumns o ++ [c]) o) valueColumns o in
      set_TagColumns (sort_Strings (TagColumns o)) o in
  let o := set_Headers (<["Content-Type" := "application/vnd.influx"]>
                        (<["User-Agent" := DefaultToHTTPUserAgent]> ∅)) o in
  (o, None)
  end end end end end end end.

(** [func createToHTTPOpSpec(args, a) (query.OperationSpec, error)], after
    [a.AddParentFromArgs(args)] succeeded: [nil] on an error of [ReadArgs]. *)
Definition createToHTTPOpSpec (args : gmap string Value) : error + ToHTTPOpSpec :=
  match ReadArgs new_ToHTTPOpSpec args with
  | (_, Some err) => inl err
  | (s, None) => inr s
  end.

(** [UnmarshalJSON] rests on two functions of Go's library, taken as they
    are: [json.Unmarshal] into the receiver (which it may change even when
    it fails) and [url.ParseRequestURI]. Of [url.URL] only the scheme is read. *)
Record URL : Type := mkURL { Scheme : string; Host : string; Path : string }.

Section Unmarshal.
Variable json_Unmarshal : list Byte.byte -> ToHTTPOpSpec -> ToHTTPOpSpec * option error.
Variable ParseRequestURI : string -> error + URL.

(** [func (o *ToHTTPOpSpec) UnmarshalJSON(b []byte) (err error)] *)
Definition UnmarshalJSON (o : ToHTTPOpSpec) (b : list Byte.byte) :
    ToHTTPOpSpec * option error :=
  match json_Unmarshal b o with
  | (o, Some err) => (o, Some err)
  | (o, None) =>
      match ParseRequestURI (Addr o) with
      | inl err => (o, Some err)
      | inr u =>
          if negb (String.eqb (Scheme u) "https" || String.eqb (Scheme u) "http"
                   || String.eqb (Scheme u) "")
          then (o, Some ("Scheme must be http or https but was " ++ Scheme u))
          else (o, None)
      end
  end.
End Unmarshal.

(** [type ToHTTPProcedureSpec struct { Spec *ToHTTPOpSpec }] *)
Record ToHTTPProcedureSpec : Type := mkToHTTPProcedureSpec { Spec : ToHTTPOpSpec }.

(** **** Blocks

    Modelled from the spec: the block interface of package [execute]. A
    block has columns and hands its rows to [Do] through column readers;
    a reader yields, per column, a typed slice with one entry per row of
    the reader. Asking a column for a slice of another type, or indexing
    past the end of a slice, panics. *)
Inductive DataType : Type :=
| TInvalid | TBool | TInt | TUInt | TFloat | TString | TTime.

Definition DataType_eqb (a b : DataType) : bool :=
  match a, b with
  | TInvalid, TInvalid | TBool, TBool | TInt, TInt | TUInt, TUInt
  | TFloat, TFloat | TString, TString | TTime, TTime => true
  | _, _ => false
  end.

Definition DataType_String (t : DataType) : string :=
  match t with
  | TInvalid => "invalid" | TBool => "bool" | TInt => "int" | TUInt => "uint"
  | TFloat => "float" | TString => "string" | TTime => "time"
  end.

Record ColMeta : Type := mkColMeta { Label : string; Typ : DataType }.

Inductive ColData : Type :=
| Bools (vs : list bool)
| Ints (vs : list Z)
| UInts (vs : list Z)
| Floats (vs : list float)
| Strings (vs : list string)
| Times (vs : list Z).

Record ColReader : Type := mkColReader { Cols : list ColMeta; Data : list ColData }.

Record Block : Type := mkBlock { BlockCols : list ColMeta; Readers : list ColReader }.

(** How many rows a reader and a block hold. *)
Definition ColData_len (d : ColData) : nat :=
  match d with
  | Bools vs => length vs | Ints vs | UInts vs | Times vs => length vs
  | Floats vs => length vs | Strings vs => length vs
  end.

Definition ColReader_Len (er : ColReader) : nat :=
  match Data er with [] => 0%nat | d :: _ => ColData_len d end.

Definition Block_rows (b : Block) : nat :=
  fold_right (fun er k => (ColReader_Len er + k)%nat) 0%nat (Readers b).

(** [er.Bools(i)[0]], ..., [er.Times(i)[0]]: [None] is a panic. *)
Definition Bools0 (er : ColReader) (i : nat) : option bool :=
  match Data er !! i with Some (Bools vs) => head vs | _ => None end.
Definition Ints0 (er : ColReader) (i : nat) : option Z :=
  match Data er !! i with Some (Ints vs) => head vs | _ => None end.
Definition UInts0 (er : ColReader) (i : nat) : option Z :=
  match Data er !! i with Some (UInts vs) => head vs | _ => None end.
Definition Floats0 (er : ColReader) (i : nat) : option float :=
  match Data er !! i with Some (Floats vs) => head vs | _ => None end.
Definition Strings0 (er : ColReader) (i : nat) : option string :=
  match Data er !! i with Some (Strings vs) => head vs | _ => None end.
Definition Times0 (er : ColReader) (i : nat) : option Z :=
  match Data er !! i with Some (Times vs) => head vs | _ => None end.

(** **** The metric handed to the line-protocol encoder *)
Inductive FieldValue : Type :=
| FFloat (v : float) | FInt (v : Z) | FUInt (v : Z)
| FString (v : string) | FTime (v : Z) | FBool (v : bool).

(** [type httpOutputMetric struct]; [protocol.Tag] and [protocol.Field] are
    key-value pairs, [t] is the time in nanoseconds. *)
Record httpOutputMetric : Type := mkMetric {
  tags : list (string * string);
  fields : list (string * FieldValue);
  name : string;
  t : Z
}.

(** [func (m *httpOutputMetric) truncateTagsAndFields()] *)
Definition truncateTagsAndFields (m : httpOutputMetric) : httpOutputMetric :=
  {| tags := []; fields := []; name := name m; t := t m |}.

Definition add_field (k : string) (v : FieldValue) (m : httpOutputMetric) :=
  {| tags := tags m; fields := fields m ++ [(k, v)]; name := name m; t := t m |}.
Definition add_tag (k v : string) (m : httpOutputMetric) :=
  {| tags := tags m ++ [(k, v)]; fields := fields m; name := name m; t := t m |}.
Definition set_t (v : Z) (m : httpOutputMetric) :=
  {| tags := tags m; fields := fields m; name := name m; t := v |}.
Definition set_name (v : string) (m : httpOutputMetric) :=
  {| tags := tags m; fields := fields m; name := v; t := t m |}.

(** [type idxType struct { Idx int; Type execute.DataType }] *)
Record idxType : Type := mkIdxType { Idx : nat; IdxTyp : DataType }.

(** The [labels] map of [Process]: a later column of the same label wins. *)
Definition labels_of (cols : list ColMeta) : gmap string idxType :=
  fold_left (fun m ic => <[Label ic.2 := mkIdxType ic.1 (Typ ic.2)]> m)
            (zip (seq 0 (length cols)) cols) ∅.

(** One round of [for i, col := range er.Cols()] in the function given to
    [b.Do]: the [switch] on the column. [None] is a panic. *)
Definition column (spec : ToHTTPOpSpec) (er : ColReader)
    (m : httpOutputMetric) (ic : nat * ColMeta) : option httpOutputMetric :=
  let '(i, col) := ic in
  if String.eqb (Label col) (TimeColumn spec) then
    v ← Times0 er i; Some (set_t v m)
  else if (SearchStrings (ValueColumns spec) (Label col) <? length (ValueColumns spec))%nat then
    match Typ col with
    | TFloat => v ← Floats0 er i; Some (add_field (Label col) (FFloat v) m)
    | TInt => v ← Ints0 er i; Some (add_field (Label col) (FInt v) m)
    | TUInt => v ← UInts0 er i; Some (add_field (Label col) (FUInt v) m)
    | TString => v ← Strings0 er i; Some (add_field (Label col) (FString v) m)
    | TTime => v ← Times0 er i; Some (add_field (Label col) (FTime v) m)
    | TBool => v ← Bools0 er i; Some (add_field (Label col) (FBool v) m)
    | TInvalid => Some m
    end
  else if (SearchStrings (TagColumns spec) (Label col) <? length (TagColumns spec))%nat then
    v ← Strings0 er i; Some (add_tag (Label col) v m)
  else Some m.

(** The function given to [b.Do], on one reader: the metric [m] after the
    call, which is also what [e.Encode(m)] was given. *)
Definition encode_reader (spec : ToHTTPOpSpec) (m : httpOutputMetric)
    (er : ColReader) : option httpOutputMetric :=
  fold_left (fun acc ic => m ← acc; column spec er m ic)
            (zip (seq 0 (length (Cols er))) (Cols er))
            (Some (truncateTagsAndFields m)).

(** The goroutine of [Process]: the metrics given to [e.Encode], in order,
    one call per reader of the block. Each call of the encoder (a library
    outside the repository) writes at most one record to the request body. *)
Definition encode_block (spec : ToHTTPOpSpec) (b : Block) :
    option (list httpOutputMetric) :=
  snd <$> fold_left
    (fun acc er => '(m, out) ← acc; m' ← encode_reader spec m er; Some (m', (out ++ [m'])%list))
    (Readers b)
    (Some (set_name (Name spec) (mkMetric [] [] "" 0), [])).

(** **** The HTTP side, as [Process] sees it *)
Record Request : Type := mkRequest {
  ReqMethod : string;
  ReqURL : string;
  ReqBody : list httpOutputMetric;
  (* the timeout of [context.WithTimeout], when the request got one *)
  ReqTimeout : option Z;
  (* sent through the shared keep-alive client *)
  ReqKeepAlive : bool
}.

Record Response : Type := mkResponse {
  StatusCode : Z;
  Status : string;
  RespBody : string
}.

(** What [Process] asks of Go's [net/http] and of the network. *)
Record HTTP : Type := mkHTTP {
  (* http.NewRequest(method, url, body): the error, if any *)
  NewRequest : string -> string -> option error;
  (* client.Do(req) *)
  Do : Request -> error + Response;
  (* req.Body.Close() *)
  BodyClose : option error
}.

Inductive result : Type :=
| Returned (err : option error)
| Panicked.

(** [func (t *ToHTTPTransformation) Process(id, b execute.Block) error]: the
    request sent, if one was, and how the call ended. The goroutine that
    encodes the block is run to its end before the request is built. *)
Definition Process (http : HTTP) (spec : ToHTTPProcedureSpec) (b : Block) :
    option Request * result :=
  let o := Spec spec in
  let labels := labels_of (BlockCols b) in
  match labels !! TimeColumn o with
  | None => (None, Returned (Some "Could not get time column"))
  | Some timeColIdx =>
      if negb (DataType_eqb (IdxTyp timeColIdx) TTime) then
        (None, Returned (Some ("column " ++ TimeColumn o ++ " is not of type "
                               ++ DataType_String (IdxTyp timeColIdx))))
      else
        match encode_block o b with
        | None => (None, Panicked)
        | Some body =>
            match NewRequest http (Method o) (Addr o) with
            | Some err => (None, Returned (Some err))
            | None =>
                let req :=
                  {| ReqMethod := Method o; ReqURL := Addr o; ReqBody := body;
                     ReqTimeout := if (Timeout o <=? 0)%Z then Some (Timeout o) else None;
                     ReqKeepAlive := negb (NoKeepAlive o) |} in
                match Do http req with
                | inl err => (Some req, Returned (Some err))
                | inr resp => (Some req, Returned (BodyClose http))
                end
            end
        end
  end.

(** **** Examples *)

(** The block of scenario S6: one reader with the two rows
    [{_time:1e9, t1:"a", _value:1.5}] and [{_time:2e9, t1:"b", _value:2.5}]. *)
Definition s6_cols : list ColMeta :=
  [mkColMeta "_time" TTime; mkColMeta "t1" TString; mkColMeta "_value" TFloat].

Definition s6_block : Block :=
  mkBlock s6_cols
    [mkColReader s6_cols
       [Times [1000000000; 2000000000]; Strings ["a"; "b"]; Floats [1.5; 2.5]%float]].

Definition s6_args : gmap string Value :=
  <["addr" := VString "http://localhost:8086/write"]>
  (<["name" := VString "m"]> (<["tag_columns" := VStrings ["t1"]]> ∅)).

(** A server that answers every request with the given status and body. *)
Definition server (code : Z) (status body : string) : HTTP :=
  {| NewRequest := fun _ _ => None;
     Do := fun _ => inr (mkResponse code status body);
     BodyClose := None |}.

(** Stand-ins for [json.Unmarshal] and [url.ParseRequestURI] on which to
    run [UnmarshalJSON]: the first stores the bytes as the address, the
    second knows three addresses. *)
Definition toy_Unmarshal (b : list Byte.byte) (o : ToHTTPOpSpec) :
    ToHTTPOpSpec * option error :=
  (set_Addr (string_of_list_byte b) o, None).

Definition toy_ParseRequestURI (s : string) : error + URL :=
  if String.eqb s "http://h/w" then inr (mkURL "http" "h" "/w")
  else if String.eqb s "/w" then inr (mkURL "" "" "/w")
  else if String.eqb s "ftp://h/w" then inr (mkURL "ftp" "h" "/w")
  else inl ("parse " ++ s ++ ": invalid URI for request").

(** The call and the block on which value columns are followed. *)
Definition c2_args : gmap string Value :=
  <["tag_columns" := VStrings ["host"]]> (<["value_columns" := VStrings ["v"]]> s6_args).

Definition c2_cols : list ColMeta :=
  [mkColMeta "_time" TTime; mkColMeta "host" TString; mkColMeta "v" TString].

Definition c2_block : Block :=
  mkBlock c2_cols [mkColReader c2_cols [Times [1000000000]; Strings ["h1"]; Strings ["x"]]].

Definition s6_spec : ToHTTPProcedureSpec :=
  mkToHTTPProcedureSpec
    (match createToHTTPOpSpec s6_args with inr o => o | inl _ => new_ToHTTPOpSpec end).

Definition s6_request : Request :=
  {| ReqMethod := "POST"; ReqURL := "http://localhost:8086/write";
     ReqBody := [mkMetric [("t1", "a")] [("_value", FFloat 1.5%float)] "m" 1000000000];
     ReqTimeout := None; ReqKeepAlive := true |}.

(** The order of [sort.Strings]: byte-wise, as Go compares strings. *)
Definition string_le (x y : string) : Prop := String.leb x y = true.

(** A block without a time column, and a column no argument lists. *)
Definition no_time_block : Block :=
  mkBlock [mkColMeta "t1" TString] [mkColReader [mkColMeta "t1" TString] [Strings ["a"]]].

Definition host_col : ColMeta := mkColMeta "host" TString.

Definition host_reader : ColReader :=
  mkColReader [mkColMeta "_time" TTime; host_col] [Times [1000000000]; Strings ["h1"]].

(** No tag and no field of the metric is keyed by the time column. *)
Definition no_time_key (spec : ToHTTPOpSpec) (m : httpOutputMetric) : Prop :=
  Forall (fun kv => kv.1 <> TimeColumn spec) (tags m) /\
  Forall (fun kv => kv.1 <> TimeColumn spec) (fields m).

End to_http.

(** ** Part II: theorems *)

(** *** stddev *)
Section StddevCount.
Import PrimFloat stddev.
Local Open Scope float_scope.

Lemma n_update a v : n (update a v) = incr (n a).
Proof. reflexivity. Qed.

Lemma n_fold_update {A} (f : A -> float) (vs : list A) a :
  n (fold_left (fun a v => update a (f v)) vs a) = Nat.iter (length vs) incr (n a).
Proof.
  revert a; induction vs as [|v vs IH]; intros a; simpl; [done|].
  rewrite IH, n_update. symmetry. apply (Nat.iter_succ_r (length vs) incr).
Qed.

Lemma n_Do a s : n (Do a s) = Nat.iter (slice_len s) incr (n a).
Proof.
  destruct s as [vs|vs|vs]; simpl.
  - apply (n_fold_update (fun v => v)).
  - apply n_fold_update.
  - apply n_fold_update.
Qed.

Lemma n_fold_Do ss a :
  n (fold_left Do ss a) = Nat.iter (consumed ss) incr (n a).
Proof.
  revert a; induction ss as [|s ss IH]; intros a; simpl; [done|].
  rewrite IH, n_Do, Nat.add_comm. symmetry. apply Nat.iter_add.
Qed.

(** C5. A stddev aggregation that consumed fewer than two values (none, or
    exactly one, over any sequence of DoFloat / DoInt / DoUInt calls on a
    fresh accumulator) reports NaN from [ValueFloat]. *)
Theorem stddev_fewer_than_two_is_nan (ss : list slice) :
  (consumed ss < 2)%nat ->
  stddev ss = nan /\ is_nan (stddev ss) = true.
Proof.
  intros Hlt. unfold stddev, ValueFloat, aggregate.
  rewrite n_fold_Do.
  destruct (consumed ss) as [|[|k]]; [split; reflexivity .. | lia].
Qed.

Lemma stddev_fewer_than_two_is_nan_witness :
  stddev [Ints []; Floats [42.5]; UInts []] = nan /\
  is_nan (stddev [Ints []; Floats [42.5]; UInts []]) = true.
Proof.
  apply (stddev_fewer_than_two_is_nan [Ints []; Floats [42.5]; UInts []]).
  simpl. lia.
Defined.

End StddevCount.


Section FloatOrder.
Import PrimFloat stddev.
Local Open Scope float_scope.

Lemma digits2_pos_bound (m : positive) :
  (Z.pos m < 2 ^ Z.pos (SpecFloat.digits2_pos m))%Z.
Proof.
  induction m as [m IH|m IH|]; simpl SpecFloat.digits2_pos.
  - rewrite Pos2Z.inj_succ, Z.pow_succ_r by lia. lia.
  - rewrite Pos2Z.inj_succ, Z.pow_succ_r by lia. lia.
  - reflexivity.
Qed.

Lemma valid_mantissa_bound s m e :
  SpecFloat.valid_binary FloatOps.prec FloatOps.emax (SpecFloat.S754_finite s m e) = true ->
  (Z.pos m < 2 ^ 53)%Z.
Proof.
  simpl. unfold SpecFloat.bounded, SpecFloat.canonical_mantissa, SpecFloat.fexp.
  intros H. apply andb_prop in H as [H _]. apply Z.eqb_eq in H.
  pose proof (digits2_pos_bound m) as Hd.
  assert (Z.pos (SpecFloat.digits2_pos m) <= 53)%Z as Hle.
  { unfold FloatOps.prec in H. lia. }
  eapply Z.lt_le_trans; [exact Hd|]. apply Z.pow_le_mono_r; lia.
Qed.

Lemma ltb_of_compare_cont (m c : positive) :
  (c <= m)%positive ->
  match PosDef.Pos.compare_cont Eq m c with Lt => true | _ => false end = false.
Proof.
  intros Hle. change (PosDef.Pos.compare_cont Eq m c) with (m ?= c)%positive.
  destruct (Pos.compare_spec m c) as [H|H|H]; [reflexivity| lia |reflexivity].
Qed.

Lemma ltb_two_false f q :
  F2Q f = Some q -> (2 <= q)%Q -> (f <? 2) = false.
Proof.
  unfold F2Q. intros HF Hq.
  rewrite FloatAxioms.ltb_spec.
  pose proof (FloatAxioms.Prim2SF_valid f) as Hv.
  assert (FloatOps.Prim2SF 2 = SpecFloat.S754_finite false 4503599627370496 (-51)) as ->
    by (vm_compute; reflexivity).
  destruct (FloatOps.Prim2SF f) as [s|s| |s m e]; try discriminate.
  - injection HF as <-. exfalso. clear - Hq. revert Hq. unfold Qle. simpl. lia.
  - apply valid_mantissa_bound in Hv.
    destruct s.
    + exfalso. injection HF as <-. clear - Hq. revert Hq. unfold Qle.
      destruct e; simpl; lia.
    + unfold SpecFloat.SFltb, SpecFloat.SFcompare.
      destruct e as [|p|p]; [reflexivity..|].
      injection HF as <-. unfold Qle in Hq. simpl in Hq.
      rewrite Pos2Z.inj_pow, Z.mul_1_r in Hq.
      destruct (Z.compare_spec (Z.neg p) (-51)) as [He|He|He]; [| |reflexivity].
      * assert (p = 51%positive) by (clear - He; lia). subst p.
        apply ltb_of_compare_cont, Pos2Z.pos_le_pos.
        assert ((2 ^ Z.pos 51)%Z = 2251799813685248%Z) as Hc by (vm_compute; reflexivity).
        rewrite Hc in Hq. clear - Hq. lia.
      * exfalso.
        assert (2 ^ 52 <= 2 ^ Z.pos p)%Z as Hp by (apply Z.pow_le_mono_r; clear - He; lia).
        assert ((2 ^ 52)%Z = 4503599627370496%Z) as Hc by (vm_compute; reflexivity).
        assert ((2 ^ 53)%Z = 9007199254740992%Z) as Hd by (vm_compute; reflexivity).
        rewrite Hc in Hp. rewrite Hd in Hv. clear - Hq Hv Hp. lia.
Qed.
End FloatOrder.

Section WelfordExact.
Import stddev.
Local Open Scope Q_scope.

Lemma Qlen_cons {A} (x : A) xs : Qlen (x :: xs) == Qlen xs + 1.
Proof.
  unfold Qlen. cbn [length]. rewrite Nat2Z.inj_succ. unfold Z.succ.
  rewrite inject_Z_plus. reflexivity.
Qed.

Lemma Qlen_nonneg {A} (xs : list A) : 0 <= Qlen xs.
Proof. unfold Qlen. change 0 with (inject_Z 0). rewrite <- Zle_Qle. lia. Qed.

Lemma welford_step_inv w c s1 s2 x :
  0 <= c ->
  qn w == c ->
  c * qmean w == s1 ->
  qm2 w == s2 - c * (qmean w * qmean w) ->
  let w' := welford_step w x in
  qn w' == c + 1 /\
  (c + 1) * qmean w' == s1 + x /\
  qm2 w' == (s2 + x * x) - (c + 1) * (qmean w' * qmean w').
Proof.
  intros Hc Hn Hs Hm. unfold welford_step. cbn [qn qmean qm2].
  assert (~ c + 1 == 0) as Hnz by lra.
  rewrite Hn, Hm, <- Hs.
  split; [reflexivity|]. split; field; exact Hnz.
Qed.

Lemma welford_fold_inv xs : forall w c s1 s2,
  0 <= c ->
  qn w == c ->
  c * qmean w == s1 ->
  qm2 w == s2 - c * (qmean w * qmean w) ->
  let w' := fold_left welford_step xs w in
  qn w' == c + Qlen xs /\
  (c + Qlen xs) * qmean w' == s1 + Qsum xs /\
  qm2 w' == (s2 + Qsum (map (fun x => x * x) xs))
            - (c + Qlen xs) * (qmean w' * qmean w').
Proof.
  induction xs as [|x xs IH]; intros w c s1 s2 Hc Hn Hs Hm; cbn [fold_left map Qsum fold_right].
  - unfold Qlen; cbn [length Z.of_nat]. change (inject_Z 0) with 0.
    rewrite !Qplus_0_r. auto.
  - destruct (welford_step_inv w c s1 s2 x Hc Hn Hs Hm) as (Hn' & Hs' & Hm').
    assert (0 <= c + 1) as Hc' by lra.
    destruct (IH _ _ _ _ Hc' Hn' Hs' Hm') as (Hn2 & Hs2 & Hm2).
    assert (c + Qlen (x :: xs) == c + 1 + Qlen xs) as E
      by (rewrite Qlen_cons; ring).
    rewrite E. split; [exact Hn2|]. split.
    + rewrite Hs2. unfold Qsum. ring.
    + rewrite Hm2. unfold Qsum. ring.
Qed.

Lemma sum_sq_expand mu xs :
  Qsum (map (fun x => (x - mu) * (x - mu)) xs)
  == Qsum (map (fun x => x * x) xs) - (2 # 1) * mu * Qsum xs + Qlen xs * (mu * mu).
Proof.
  induction xs as [|x xs IH]; cbn [map Qsum fold_right].
  - unfold Qlen; cbn [length Z.of_nat]. change (inject_Z 0) with 0. ring.
  - fold (Qsum (map (fun x => (x - mu) * (x - mu)) xs)).
    fold (Qsum (map (fun x => x * x) xs)). fold (Qsum xs).
    rewrite IH, Qlen_cons. ring.
Qed.

(** Over exact numbers the recurrence computes the count, the mean and the
    sum of squared deviations from the mean. *)
Lemma welford_exact (xs : list Q) :
  xs <> [] ->
  qn (welford xs) == Qlen xs /\
  qmean (welford xs) == Qmean xs /\
  qm2 (welford xs) == sum_sq_dev xs.
Proof.
  intros Hne. unfold welford.
  destruct (welford_fold_inv xs (mkWelfordQ 0 0 0) 0 0 0) as (Hn & Hs & Hm);
    cbn [qn qmean qm2]; try lra.
  set (w := fold_left welford_step xs _) in *.
  assert (0 < Qlen xs) as Hpos.
  { destruct xs as [|x xs]; [done|]. rewrite Qlen_cons.
    pose proof (Qlen_nonneg xs). lra. }
  assert (~ Qlen xs == 0) as Hnz by lra.
  assert (qn w == Qlen xs) as Hn' by (rewrite Hn; ring).
  assert (Qlen xs * qmean w == Qsum xs) as Hs'.
  { transitivity ((0 + Qlen xs) * qmean w); [ring|]. rewrite Hs. ring. }
  assert (qm2 w == Qsum (map (fun x => x * x) xs) - Qlen xs * (qmean w * qmean w)) as Hm'.
  { rewrite Hm. ring. }
  assert (qmean w == Qmean xs) as Hmean.
  { unfold Qmean. fold (Qlen xs). rewrite <- Hs'. field. exact Hnz. }
  split; [exact Hn'|]. split; [exact Hmean|].
  unfold sum_sq_dev. rewrite sum_sq_expand, Hm', Hmean.
  assert (Qsum xs == Qlen xs * Qmean xs) as ->.
  { unfold Qmean. fold (Qlen xs). field. exact Hnz. }
  ring.
Qed.
End WelfordExact.

Section WelfordFloat.
Import PrimFloat stddev.

Lemma repr_F2Q f q : F2Q f = Some q -> repr f q.
Proof. intros H. exists q. split; [exact H | reflexivity]. Qed.

Lemma exact_op_sound opf opq x y a b :
  Proper (Qeq ==> Qeq ==> Qeq) opq ->
  exact_op opf opq x y = true ->
  repr x a -> repr y b -> repr (opf x y) (opq a b).
Proof.
  intros Hp He (a' & Ha & Ea) (b' & Hb & Eb). unfold exact_op in He.
  rewrite Ha, Hb in He. destruct (F2Q (opf x y)) as [c|] eqn:Hc; [|discriminate].
  exists c. split; [exact Hc|]. apply Qeq_bool_eq in He.
  rewrite He. apply Hp; assumption.
Qed.

Lemma exact_op_fst opf opq x y :
  exact_op opf opq x y = true -> exists q, F2Q x = Some q.
Proof. unfold exact_op. destruct (F2Q x); [eauto|discriminate]. Qed.

Lemma repr_one : repr 1%float 1%Q.
Proof. eexists. split; [vm_compute; reflexivity|]. reflexivity. Qed.

Lemma repr_zero : repr 0%float 0%Q.
Proof. eexists. split; [vm_compute; reflexivity|]. reflexivity. Qed.

Lemma exact_update_sound a v w x :
  exact_update a v = true -> repr_agg a w -> repr v x ->
  repr_agg (update a v) (welford_step w x).
Proof.
  unfold exact_update. intros He (Hn & Hm2 & Hmean) Hv.
  repeat (apply andb_prop in He as [He ?]).
  unfold update, welford_step, repr_agg; cbn [n m2 mean qn qm2 qmean].
  assert (repr (n a + 1)%float (qn w + 1)%Q) as Hn'
    by (eapply (exact_op_sound add Qplus); eauto using repr_one; apply _).
  assert (repr (v - mean a)%float (x - qmean w)%Q) as Hd
    by (eapply (exact_op_sound sub Qminus); eauto; apply _).
  assert (repr ((v - mean a) / (n a + 1))%float ((x - qmean w) / (qn w + 1))%Q) as Hq
    by (eapply (exact_op_sound div Qdiv); eauto; apply _).
  assert (repr (mean a + (v - mean a) / (n a + 1))%float
               (qmean w + (x - qmean w) / (qn w + 1))%Q) as Hmu
    by (eapply (exact_op_sound add Qplus); eauto; apply _).
  assert (repr (v - (mean a + (v - mean a) / (n a + 1)))%float
               (x - (qmean w + (x - qmean w) / (qn w + 1)))%Q) as Hd2
    by (eapply (exact_op_sound sub Qminus); eauto; apply _).
  split; [exact Hn'|]. split; [|exact Hmu].
  eapply (exact_op_sound add Qplus); [apply _|eassumption|exact Hm2|].
  eapply (exact_op_sound mul Qmult); [apply _|eassumption|exact Hd|exact Hd2].
Qed.

Lemma exact_run_sound vs : forall a w,
  exact_run a vs = true -> repr_agg a w ->
  exists qs, mapM F2Q vs = Some qs /\
             repr_agg (fold_left update vs a) (fold_left welford_step qs w).
Proof.
  induction vs as [|v vs IH]; intros a w He Ha.
  - exists []. split; [reflexivity | exact Ha].
  - cbn [exact_run] in He. apply andb_prop in He as [Hu Hr].
    assert (exists x, F2Q v = Some x) as [x Hx].
    { unfold exact_update in Hu. repeat (apply andb_prop in Hu as [Hu ?]).
      eapply (exact_op_fst sub Qminus v). eassumption. }
    destruct (IH (update a v) (welford_step w x) Hr) as (qs & Hqs & Hrep).
    { apply exact_update_sound; [exact Hu | exact Ha | apply repr_F2Q, Hx]. }
    exists (x :: qs). split; [|exact Hrep].
    cbn [mapM]. rewrite Hx. cbn. rewrite Hqs. reflexivity.
Qed.

Lemma fold_update_map {A} (f : A -> float) vs a :
  fold_left (fun a v => update a (f v)) vs a = fold_left update (map f vs) a.
Proof. revert a. induction vs as [|v vs IH]; intros a; simpl; [done|]. apply IH. Qed.

Lemma Do_slice_values a s : Do a s = fold_left update (slice_values s) a.
Proof. destruct s as [vs|vs|vs]; simpl; [done | apply fold_update_map ..]. Qed.

Lemma fold_Do_values ss a :
  fold_left Do ss a = fold_left update (values ss) a.
Proof.
  revert a. induction ss as [|s ss IH]; intros a; simpl; [done|].
  unfold values in *. simpl. by rewrite fold_left_app, IH, Do_slice_values.
Qed.




Lemma welford_rounding_example :
  stddev [Floats [9007199254740992; 9007199254740994]%float] = 2%float /\
  (sum_sq_dev [inject_Z 9007199254740992; inject_Z 9007199254740994] == 2)%Q.
Proof. split; vm_compute; reflexivity. Qed.

End WelfordFloat.

(** *** The storage source *)
Section SourceFacts.
Import source.
Local Open Scope Z_scope.
Context {Err Block ReadSpec DatasetID Transformation Reader : Type}.
Variable Read : Reader -> ReadSpec -> Time -> Time -> Reader * (Err + list Block).

Abbreviation Src := (@storageSource ReadSpec DatasetID Transformation Reader).
Abbreviation Ev := (@event Err Block DatasetID Transformation).
Abbreviation NextR := (Next Read).
Abbreviation RunR := (Run Read).

Lemma wrap64_small z : is_int64 z -> wrap64 z = z.
Proof.
  unfold is_int64, wrap64. intros H.
  rewrite Z.mod_small; lia.
Qed.

Lemma Next_inv (s : Src) :
  let start := wrap64 (currentTime s - Period (window s)) in
  let stop := currentTime s in
  (Stop (bounds s) < stop /\
   NextR s = (advance s (reader s), [], ([], 0, false)))
  \/ (stop <= Stop (bounds s) /\ exists r e,
        Read (reader s) (readSpec s) start stop = (r, inl e) /\
        NextR s = (advance s r, [EvRead start stop; EvLog e], ([], 0, false)))
  \/ (stop <= Stop (bounds s) /\ exists r bi,
        Read (reader s) (readSpec s) start stop = (r, inr bi) /\
        NextR s = (advance s r, [EvRead start stop], (bi, stop, true))).
Proof.
  intros start stop. unfold Next. fold start stop.
  destruct (Z.ltb_spec (Stop (bounds s)) stop) as [Hlt|Hle]; [left; done|].
  right. destruct (Read (reader s) (readSpec s) start stop) as [r [e|bi]] eqn:HR.
  - left. split; [done|]. by exists r, e.
  - right. split; [done|]. by exists r, bi.
Qed.

Lemma omap_flat_map_nil {A B C} (f : B -> option C) (g : A -> list B) l :
  (forall x, omap f (g x) = []) -> omap f (flat_map g l) = [].
Proof.
  intros Hg. induction l as [|x l IH]; simpl; [done|].
  by rewrite omap_app, Hg, IH.
Qed.

Lemma omap_map_nil {A B C} (f : B -> option C) (g : A -> B) l :
  (forall x, f (g x) = None) -> omap f (map g l) = [].
Proof.
  intros Hg. induction l as [|x l IH]; simpl; [done|]. by rewrite Hg.
Qed.

Lemma reads_forward (s : Src) (blocks : list Block) mark :
  reads (forward s blocks mark : list Ev) = [].
Proof.
  unfold forward, reads. rewrite omap_app, omap_map_nil by done.
  rewrite omap_flat_map_nil; [done|].
  intros b. by apply omap_flat_map_nil.
Qed.

Lemma reads_finish_all (s : Src) : reads (finish_all s : list Ev) = [].
Proof. unfold finish_all, reads. by apply omap_map_nil. Qed.

Lemma watermarks_forward (s : Src) (blocks : list Block) mark :
  watermarks (forward s blocks mark : list Ev) = map (fun _ => mark) (ts s).
Proof.
  unfold forward, watermarks. rewrite omap_app.
  rewrite omap_flat_map_nil by (intros b; by apply omap_flat_map_nil).
  simpl. induction (ts s); simpl; [done|]. by f_equal.
Qed.

Lemma watermarks_finish_all (s : Src) : watermarks (finish_all s : list Ev) = [].
Proof. unfold finish_all, watermarks. by apply omap_map_nil. Qed.

Lemma Forall_flat_map_intro {A B} (P : B -> Prop) (g : A -> list B) l :
  (forall x, Forall P (g x)) -> Forall P (flat_map g l).
Proof.
  intros Hg. induction l as [|x l IH]; simpl; [constructor|].
  apply Forall_app. by split.
Qed.

Lemma Forall_map_intro {A B} (P : B -> Prop) (g : A -> B) l :
  (forall x, P (g x)) -> Forall P (map g l).
Proof. intros Hg. induction l as [|x l IH]; simpl; constructor; auto. Qed.

Lemma no_log_forward (s : Src) (blocks : list Block) mark :
  Forall (fun ev : Ev => is_log ev = false) (forward s blocks mark).
Proof.
  unfold forward. apply Forall_app. split.
  - apply Forall_flat_map_intro. intros b. apply Forall_flat_map_intro.
    intros t. by repeat constructor.
  - by apply Forall_map_intro.
Qed.

Lemma no_log_finish_all (s : Src) :
  Forall (fun ev : Ev => is_log ev = false) (finish_all s).
Proof. unfold finish_all. by apply Forall_map_intro. Qed.

Lemma split_at_log (l1 l2 pre post : list Ev) e :
  Forall (fun ev => is_log ev = false) l1 ->
  l1 ++ l2 = pre ++ EvLog e :: post ->
  exists pre', pre = l1 ++ pre' /\ l2 = pre' ++ EvLog e :: post.
Proof.
  intros Hno. revert pre. induction Hno as [|a l1 Ha Hno IH]; intros pre Heq.
  - exists pre. done.
  - destruct pre as [|a' pre]; simpl in Heq.
    + injection Heq as -> _. discriminate Ha.
    + injection Heq as -> Heq. destruct (IH _ Heq) as (pre' & -> & ->).
      by exists pre'.
Qed.

Lemma Run_stop fuel (s s' : Src) evs blocks mark :
  NextR s = (s', evs, (blocks, mark, false)) ->
  RunR (S fuel) s = (evs ++ finish_all s, true).
Proof. intros HN. cbn [Run]. by rewrite HN. Qed.

Lemma Run_ok fuel (s s' : Src) evs blocks mark :
  NextR s = (s', evs, (blocks, mark, true)) ->
  RunR (S fuel) s =
    (evs ++ forward s blocks mark ++ (RunR fuel s').1, (RunR fuel s').2).
Proof. intros HN. cbn [Run]. rewrite HN. by destruct (RunR fuel s'). Qed.

Lemma reads_app (l1 l2 : list Ev) : reads (l1 ++ l2) = reads l1 ++ reads l2.
Proof. apply omap_app. Qed.

Lemma watermarks_app (l1 l2 : list Ev) :
  watermarks (l1 ++ l2) = watermarks l1 ++ watermarks l2.
Proof. apply omap_app. Qed.

(** C9. Every window the source asks of [StorageReader.Read] stops at or
    before [s.bounds.Stop], over a run of any length; and once the next
    window's stop exceeds the bounds, [Next] reads nothing and returns
    [ok = false]. *)
Theorem reads_within_bounds fuel (s : Src) :
  Forall (fun w => w.2 <= Stop (bounds s)) (reads (RunR fuel s).1) /\
  (Stop (bounds s) < currentTime s ->
   NextR s = (advance s (reader s), [], ([], 0, false))).
Proof.
  split.
  - revert s. induction fuel as [|fuel IH]; intros s; [constructor|].
    destruct (Next_inv s) as [[Hlt HN]|[(Hle & r & e & HR & HN)|(Hle & r & bi & HR & HN)]].
    + rewrite (Run_stop _ _ _ _ _ _ HN). cbn [fst app].
      rewrite reads_finish_all. constructor.
    + rewrite (Run_stop _ _ _ _ _ _ HN). cbn [fst]. rewrite reads_app, reads_finish_all.
      cbn. repeat constructor. exact Hle.
    + rewrite (Run_ok _ _ _ _ _ _ HN). cbn [fst].
      rewrite !reads_app, reads_forward. cbn.
      constructor; [exact Hle | apply (IH (advance s r))].
  - intros Hlt. unfold Next.
    destruct (Z.ltb_spec (Stop (bounds s)) (currentTime s)); [done | lia].
Qed.

Lemma Sorted_map_const_app {A} (c : Z) (l : list A) (ms : list Z) :
  Sorted Z.le ms -> Forall (Z.le c) ms ->
  Sorted Z.le (map (fun _ => c) l ++ ms) /\ Forall (Z.le c) (map (fun _ => c) l ++ ms).
Proof.
  intros Hs Hf. induction l as [|x l [IHs IHf]]; simpl; [done|]. split.
  - constructor; [exact IHs|].
    destruct (map (fun _ => c) l ++ ms) eqn:E; constructor.
    by inversion IHf.
  - constructor; [lia | exact IHf].
Qed.

Lemma watermarks_sorted_from fuel : forall s : Src,
  is_int64 (currentTime s) ->
  0 <= Every (window s) ->
  Stop (bounds s) + Every (window s) < 2 ^ 63 ->
  Sorted Z.le (watermarks (RunR fuel s).1) /\
  Forall (Z.le (currentTime s)) (watermarks (RunR fuel s).1).
Proof.
  induction fuel as [|fuel IH]; intros s Hcur Hev Hstop; [split; constructor|].
  destruct (Next_inv s) as [[Hlt HN]|[(Hle & r & e & HR & HN)|(Hle & r & bi & HR & HN)]].
  - rewrite (Run_stop _ _ _ _ _ _ HN). cbn [fst app].
    rewrite watermarks_finish_all. split; constructor.
  - rewrite (Run_stop _ _ _ _ _ _ HN). cbn [fst].
    rewrite watermarks_app, watermarks_finish_all. cbn. split; constructor.
  - rewrite (Run_ok _ _ _ _ _ _ HN). cbn [fst].
    rewrite !watermarks_app, watermarks_forward. cbn [watermarks omap app].
    assert (currentTime (advance s r) = currentTime s + Every (window s)) as Hadv.
    { cbn [advance currentTime]. apply wrap64_small. unfold is_int64 in *. lia. }
    destruct (IH (advance s r)) as [Hs Hge].
    { rewrite Hadv. unfold is_int64 in *. lia. }
    { exact Hev. }
    { exact Hstop. }
    rewrite Hadv in Hge.
    apply Sorted_map_const_app; [exact Hs|].
    eapply Forall_impl; [exact Hge|]. cbn beta. intros; lia.
Qed.

(** C8 (amended). With [every >= 0] and [bounds.Stop + every] within
    [int64] (so that advancing the current time never wraps around), the
    marks the source passes to [UpdateWatermark], over all its subscribers
    and batches in call order, never decrease. *)
Theorem watermarks_nondecreasing fuel (s : Src) :
  is_int64 (currentTime s) ->
  0 <= Every (window s) ->
  Stop (bounds s) + Every (window s) < 2 ^ 63 ->
  Sorted Z.le (watermarks (RunR fuel s).1).
Proof. intros. by apply watermarks_sorted_from. Qed.

(** C4 (amended). When [StorageReader.Read] returns an error, the source
    logs it and stops: [Run] returns, nothing is read or forwarded after
    the error, and what follows is exactly one [Finish] per subscriber,
    each carrying [nil] rather than the error. *)
Theorem read_error_finishes_with_nil fuel : forall (s : Src) tr returned pre e post,
  RunR fuel s = (tr, returned) ->
  tr = pre ++ EvLog e :: post ->
  returned = true /\ post = finish_all s.
Proof.
  induction fuel as [|fuel IH]; intros s tr returned pre e post HR Htr.
  - injection HR as <- <-. by destruct pre.
  - destruct (Next_inv s) as [[Hlt HN]|[(Hle & r & e' & _ & HN)|(Hle & r & bi & _ & HN)]].
    + rewrite (Run_stop _ _ _ _ _ _ HN) in HR. injection HR as <- <-.
      cbn [app] in Htr.
      destruct (split_at_log (finish_all s) [] pre post e (no_log_finish_all s))
        as (pre' & _ & Hnil); [by rewrite app_nil_r|].
      by destruct pre'.
    + rewrite (Run_stop _ _ _ _ _ _ HN) in HR. injection HR as <- <-.
      cbn [app] in Htr.
      destruct pre as [|a pre]; [discriminate|]. injection Htr as <- Htr.
      destruct pre as [|a pre].
      * by injection Htr as _ <-.
      * injection Htr as <- Htr.
        destruct (split_at_log (finish_all s) [] pre post e (no_log_finish_all s))
          as (pre' & _ & Hnil); [by rewrite app_nil_r|].
        by destruct pre'.
    + rewrite (Run_ok _ _ _ _ _ _ HN) in HR. injection HR as <- <-.
      destruct (split_at_log ([EvRead (wrap64 (currentTime s - Period (window s)))
                                 (currentTime s)] ++ forward s bi (currentTime s))
                  (RunR fuel (advance s r)).1 pre post e) as (pre' & _ & Hrest).
      { constructor; [done | apply no_log_forward]. }
      { rewrite <- Htr. by rewrite <- app_assoc. }
      destruct (IH (advance s r) _ _ pre' e post (surjective_pairing _) Hrest) as [-> ->].
      done.
Qed.

End SourceFacts.

Section SourceExamples.
Import source.
Local Open Scope Z_scope.

Lemma watermarks_nondecreasing_witness :
  Sorted Z.le (watermarks
    (Run empty_reader 5 (example_source (mkWindow 10 10) (mkBounds 0 45) 20)).1).
Proof.
  apply (watermarks_nondecreasing empty_reader 5
           (example_source (mkWindow 10 10) (mkBounds 0 45) 20)).
  - unfold is_int64. simpl. lia.
  - simpl. lia.
  - simpl. lia.
Defined.

(** C8, as stated, fails: with [every = 2 >= 0], a current time two below
    the largest [int64] and bounds that stop at the largest [int64], the
    second mark has wrapped around to the smallest [int64]. *)
Lemma watermarks_wrap_around :
  0 <= Every (mkWindow 2 10) /\
  ~ Sorted Z.le (watermarks
      (Run empty_reader 2
         (example_source (mkWindow 2 10) (mkBounds 0 (2 ^ 63 - 1)) (2 ^ 63 - 2))).1).
Proof.
  split; [simpl; lia|]. vm_compute. intros H.
  apply Sorted_inv in H as [H _]. apply Sorted_inv in H as [_ H].
  apply HdRel_inv in H. apply H. reflexivity.
Qed.

Lemma read_error_finishes_with_nil_witness :
  true = true /\
  ([EvFinish 1%nat 7%nat None; EvFinish 2%nat 7%nat None]
     : list (@event string unit nat nat))
  = finish_all (example_source (mkWindow 10 10) (mkBounds 0 100) 20).
Proof.
  apply (read_error_finishes_with_nil (failing_reader "boom") 5
           (example_source (mkWindow 10 10) (mkBounds 0 100) 20)
           [EvRead 10 20; EvLog "boom"; EvFinish 1%nat 7%nat None; EvFinish 2%nat 7%nat None]
           true [EvRead 10 20] "boom").
  - reflexivity.
  - reflexivity.
Defined.

(** C4, as stated, fails: the reader fails the first read with "boom";
    the source logs it, and every subscriber is finished with [nil], none
    with the error. *)
Lemma read_error_not_propagated :
  let tr := (Run (failing_reader "boom") 5
               (example_source (mkWindow 10 10) (mkBounds 0 100) 20)).1 in
  tr = [EvRead 10 20; EvLog "boom"; EvFinish 1%nat 7%nat None; EvFinish 2%nat 7%nat None]
  /\ ~ In (EvFinish 1%nat 7%nat (Some "boom")) tr.
Proof.
  split; [reflexivity|]. simpl. intros [H|[H|[H|[H|[]]]]]; discriminate H.
Qed.

End SourceExamples.

(** *** toHTTP *)
Section ToHTTPFacts.
Import PrimFloat to_http.
Local Open Scope string_scope.
Local Open Scope Z_scope.

Lemma GetRequiredString_insert_ne (args : gmap string Value) k v name :
  k <> name -> GetRequiredString (<[k := v]> args) name = GetRequiredString args name.
Proof. intros H. unfold GetRequiredString. by rewrite lookup_insert_ne. Qed.

Lemma GetString_insert_ne (args : gmap string Value) k v name :
  k <> name -> GetString (<[k := v]> args) name = GetString args name.
Proof. intros H. unfold GetString. by rewrite lookup_insert_ne. Qed.

Lemma GetArray_String_insert_ne (args : gmap string Value) k v name :
  k <> name -> GetArray_String (<[k := v]> args) name = GetArray_String args name.
Proof. intros H. unfold GetArray_String. by rewrite lookup_insert_ne. Qed.

Lemma GetDuration_insert (args : gmap string Value) k d :
  GetDuration (<[k := VDuration d]> args) k = inr (d, true).
Proof. unfold GetDuration. by rewrite lookup_insert_eq. Qed.

Lemma Timeout_fold {A} (g : ToHTTPOpSpec -> A -> ToHTTPOpSpec) l o :
  (forall o c, Timeout (g o c) = Timeout o) ->
  Timeout (fold_left g l o) = Timeout o.
Proof.
  intros Hg. revert o. induction l as [|c l IH]; intros o; simpl; [done|].
  by rewrite IH.
Qed.

Lemma Timeout_set_Addr v o : Timeout (set_Addr v o) = Timeout o.
Proof. reflexivity. Qed.
Lemma Timeout_set_Name v o : Timeout (set_Name v o) = Timeout o.
Proof. reflexivity. Qed.
Lemma Timeout_set_Method v o : Timeout (set_Method v o) = Timeout o.
Proof. reflexivity. Qed.
Lemma Timeout_set_Headers v o : Timeout (set_Headers v o) = Timeout o.
Proof. reflexivity. Qed.
Lemma Timeout_set_TimeColumn v o : Timeout (set_TimeColumn v o) = Timeout o.
Proof. reflexivity. Qed.
Lemma Timeout_set_TagColumns v o : Timeout (set_TagColumns v o) = Timeout o.
Proof. reflexivity. Qed.
Lemma Timeout_set_ValueColumns v o : Timeout (set_ValueColumns v o) = Timeout o.
Proof. reflexivity. Qed.
Lemma Timeout_set_Timeout v o : Timeout (set_Timeout v o) = v.
Proof. reflexivity. Qed.

Create Rewrite HintDb timeout_field.

Hint Rewrite Timeout_set_Addr Timeout_set_Name Timeout_set_Method
  Timeout_set_Headers Timeout_set_TimeColumn Timeout_set_TagColumns
  Timeout_set_ValueColumns Timeout_set_Timeout : timeout_field.

Ltac timeout_field :=
  repeat first
    [ progress autorewrite with timeout_field
    | rewrite Timeout_fold by (intros; autorewrite with timeout_field; reflexivity) ].

(** What [ReadArgs] does after it has read [timeout]: the rest of the
    arguments never touch the field. *)
Lemma ReadArgs_Timeout_of o args o' d ok :
  GetDuration args "timeout" = inr (d, ok) ->
  ReadArgs o args = (o', None) ->
  Timeout o' = if ok then d else DefaultToHTTPTimeout.
Proof.
  intros Hd. unfold ReadArgs.
  destruct (GetRequiredString args "addr") as [?|addr]; [discriminate|].
  destruct (GetRequiredString args "name") as [?|nm]; [discriminate|].
  destruct (GetString args "method") as [?|[method okm]]; [discriminate|].
  rewrite Hd.
  destruct (GetString args "time_column") as [?|[tc oktc]]; [discriminate|].
  destruct (GetArray_String args "tag_columns") as [?|[tcs oktag]]; [discriminate|].
  destruct (GetArray_String args "value_columns") as [?|[vcs okv]]; [discriminate|].
  intros [= <-].
  destruct (negb okv || (length vcs =? 0)%nat), ok, okm, oktc, oktag;
    timeout_field; reflexivity.
Qed.

(** Whether [ReadArgs] fails does not depend on which duration [timeout] is. *)
Lemma ReadArgs_error_any_duration o args d d' :
  (ReadArgs o (<["timeout" := VDuration d]> args)).2 = None ->
  (ReadArgs o (<["timeout" := VDuration d']> args)).2 = None.
Proof.
  unfold ReadArgs.
  rewrite !GetRequiredString_insert_ne, !GetString_insert_ne,
    !GetArray_String_insert_ne, !GetDuration_insert by done.
  destruct (GetRequiredString args "addr") as [?|addr]; [done|].
  destruct (GetRequiredString args "name") as [?|nm]; [done|].
  destruct (GetString args "method") as [?|[method okm]]; [done|].
  destruct (GetString args "time_column") as [?|[tc oktc]]; [done|].
  destruct (GetArray_String args "tag_columns") as [?|[tcs oktag]]; [done|].
  destruct (GetArray_String args "value_columns") as [?|[vcs okv]]; done.
Qed.




(** The same reader on [timeout: 0s]: the OpSpec keeps the zero, and
    [Process] puts it on the request as a context timeout of zero. *)
Lemma ReadArgs_keeps_zero_timeout :
  exists o req r,
    createToHTTPOpSpec (<["timeout" := VDuration 0]> s6_args) = inr o /\
    Timeout o = 0 /\
    Process (server 204 "204 No Content" "") (mkToHTTPProcedureSpec o) s6_block = (Some req, r) /\
    ReqTimeout req = Some 0.
Proof.
  eexists _, _, _. split; [vm_compute; reflexivity|].
  split; [reflexivity|]. split; [vm_compute; reflexivity | reflexivity].
Qed.

(** **** Value columns *)

(** C2 (code bug). On [tag_columns: ["host"], value_columns: ["v"]] the
    reader leaves [ValueColumns] empty and overwrites [TagColumns] with
    the value column; a row is then encoded with [v] among the tags and
    with no field at all. *)
Theorem ReadArgs_value_columns_into_tags :
  exists o req,
    createToHTTPOpSpec c2_args = inr o /\
    ValueColumns o = [] /\ TagColumns o = ["v"] /\
    Process (server 204 "204 No Content" "") (mkToHTTPProcedureSpec o) c2_block
      = (Some req, Returned None) /\
    ReqBody req = [mkMetric [("host", "h1"); ("v", "x")] [] "m" 1000000000].
Proof.
  eexists _, _. split; [vm_compute; reflexivity|].
  split; [reflexivity|]. split; [reflexivity|].
  split; [vm_compute; reflexivity | reflexivity].
Qed.

(** **** Responses *)

(** C3 (amended). Whatever response the request gets, [Process] looks at
    neither its status nor its body: it returns what closing the request
    body returns. Only a failure of the request itself is returned as the
    error of [Process]. *)
Theorem Process_ignores_response (http : HTTP) (spec : ToHTTPProcedureSpec)
    (b : Block) (req : Request) (r : result) :
  Process http spec b = (Some req, r) ->
  (forall resp, Do http req = inr resp -> r = Returned (BodyClose http)) /\
  (forall err, Do http req = inl err -> r = Returned (Some err)).
Proof.
  unfold Process. intros HP.
  destruct (labels_of (BlockCols b) !! TimeColumn (Spec spec)) as [idx|]; [|discriminate].
  destruct (negb (DataType_eqb (IdxTyp idx) TTime)); [discriminate|].
  destruct (encode_block (Spec spec) b) as [body|]; [|discriminate].
  destruct (NewRequest http (Method (Spec spec)) (Addr (Spec spec))); [discriminate|].
  match type of HP with context [Do http ?q] => set (req' := q) in * end.
  destruct (Do http req') as [err|resp] eqn:HD; injection HP as <- <-;
    split; intros ? HD'; rewrite HD in HD'; by simplify_eq.
Qed.

Lemma Process_ignores_response_witness :
  (forall resp,
     Do (server 500 "500 Internal Server Error" "oops") s6_request = inr resp ->
     Returned None = Returned (BodyClose (server 500 "500 Internal Server Error" "oops"))) /\
  (forall err,
     Do (server 500 "500 Internal Server Error" "oops") s6_request = inl err ->
     Returned None = Returned (Some err)).
Proof.
  apply (Process_ignores_response (server 500 "500 Internal Server Error" "oops")
           s6_spec s6_block s6_request (Returned None)).
  vm_compute. reflexivity.
Defined.

(** C3, as stated, fails: the server answers [500 Internal Server Error]
    with body "oops", and [Process] returns [nil]. *)
Lemma Process_returns_nil_on_500 :
  Do (server 500 "500 Internal Server Error" "oops") s6_request
    = inr (mkResponse 500 "500 Internal Server Error" "oops") /\
  Process (server 500 "500 Internal Server Error" "oops") s6_spec s6_block
    = (Some s6_request, Returned None).
Proof. split; [reflexivity | vm_compute; reflexivity]. Qed.

(** **** Rows *)

(** C7 (code bug). The block of scenario S6 has two rows in one reader;
    the request body gets one record, that of the first row. *)
Theorem Process_encodes_first_row_only :
  Block_rows s6_block = 2%nat /\
  exists req r,
    Process (server 204 "204 No Content" "") s6_spec s6_block = (Some req, r) /\
    ReqBody req = [mkMetric [("t1", "a")] [("_value", FFloat 1.5%float)] "m" 1000000000] /\
    length (ReqBody req) = 1%nat.
Proof.
  split; [reflexivity|]. eexists _, _.
  split; [vm_compute; reflexivity|]. split; reflexivity.
Qed.

(** **** Unmarshalling *)

Section UnmarshalFacts.
Variable json_Unmarshal : list Byte.byte -> ToHTTPOpSpec -> ToHTTPOpSpec * option error.
Variable ParseRequestURI : string -> error + URL.

(** C10. [UnmarshalJSON] returns an error whenever the unmarshalled [addr]
    does not parse as a request URI, and whenever its scheme is none of
    "http", "https" and the empty scheme; when it returns no error, the
    address parses and has one of the three schemes. *)
Theorem UnmarshalJSON_validates_addr (o : ToHTTPOpSpec) (b : list Byte.byte) :
  let r := UnmarshalJSON json_Unmarshal ParseRequestURI o b in
  (forall e, ParseRequestURI (Addr r.1) = inl e -> r.2 <> None) /\
  (forall u, ParseRequestURI (Addr r.1) = inr u ->
     Scheme u <> "https" -> Scheme u <> "http" -> Scheme u <> "" -> r.2 <> None) /\
  (r.2 = None ->
     exists u, ParseRequestURI (Addr r.1) = inr u /\
               (Scheme u = "https" \/ Scheme u = "http" \/ Scheme u = "")).
Proof.
  unfold UnmarshalJSON.
  destruct (json_Unmarshal b o) as [o' [err|]]; cbn [fst snd].
  { repeat split; try done. }
  destruct (ParseRequestURI (Addr o')) as [e|u] eqn:HP; cbn [fst snd].
  { rewrite HP. repeat split; try done. }
  destruct (String.eqb_spec (Scheme u) "https") as [Hs|Hs];
  destruct (String.eqb_spec (Scheme u) "http") as [Hh|Hh];
  destruct (String.eqb_spec (Scheme u) "") as [He|He];
    cbn [orb negb fst snd]; rewrite HP;
    (split; [done|]); (split; [intros ? [= <-]; try done; intros; try done|]);
    try (intros _; exists u; split; [done|]; auto; fail); done.
Qed.

End UnmarshalFacts.

Lemma UnmarshalJSON_validates_addr_witness :
  (UnmarshalJSON toy_Unmarshal toy_ParseRequestURI new_ToHTTPOpSpec
     (list_byte_of_string "ftp://h/w")).2 <> None.
Proof.
  apply (proj1 (proj2 (UnmarshalJSON_validates_addr toy_Unmarshal toy_ParseRequestURI
                         new_ToHTTPOpSpec (list_byte_of_string "ftp://h/w")))
           (mkURL "ftp" "h" "/w")).
  - reflexivity.
  - discriminate.
  - discriminate.
  - discriminate.
Defined.

End ToHTTPFacts.


(** ** Part III: further properties of the code *)

(** *** stddev *)
Section StddevMore.
Import PrimFloat stddev.
Local Open Scope float_scope.

(** X1. What a stddev accumulator holds, and the value it reports, depend
    only on the sequence of values fed to it: not on how the sequence is
    cut into [Do*] calls, nor on whether a value came as an integer or as
    the [float64] it converts to. *)
Theorem aggregate_by_values (ss ss' : list slice) :
  values ss = values ss' ->
  aggregate ss = aggregate ss' /\ stddev ss = stddev ss'.
Proof.
  intros H. unfold stddev, aggregate. rewrite !fold_Do_values, H. done.
Qed.

Lemma aggregate_by_values_witness :
  aggregate [Floats [1; 2]; Ints [3]%Z] = aggregate [Floats [1]; Floats [2; 3]] /\
  stddev [Floats [1; 2]; Ints [3]%Z] = stddev [Floats [1]; Floats [2; 3]].
Proof.
  apply (aggregate_by_values [Floats [1; 2]; Ints [3]%Z] [Floats [1]; Floats [2; 3]]).
  vm_compute. reflexivity.
Defined.

Lemma Prim2SF_nan_inv f : FloatOps.Prim2SF f = SpecFloat.S754_nan -> f = nan.
Proof.
  intros H. rewrite <- (FloatAxioms.SF2Prim_Prim2SF f), H. reflexivity.
Qed.

Lemma add_nan_r x : x + nan = nan.
Proof.
  apply Prim2SF_nan_inv. rewrite FloatAxioms.add_spec.
  change (FloatOps.Prim2SF nan) with SpecFloat.S754_nan.
  by destruct (FloatOps.Prim2SF x).
Qed.

Lemma add_nan_l x : nan + x = nan.
Proof.
  apply Prim2SF_nan_inv. rewrite FloatAxioms.add_spec.
  change (FloatOps.Prim2SF nan) with SpecFloat.S754_nan.
  by destruct (FloatOps.Prim2SF x).
Qed.

Lemma sub_nan_l x : nan - x = nan.
Proof.
  apply Prim2SF_nan_inv. rewrite FloatAxioms.sub_spec.
  change (FloatOps.Prim2SF nan) with SpecFloat.S754_nan.
  by destruct (FloatOps.Prim2SF x).
Qed.

Lemma sub_nan_r x : x - nan = nan.
Proof.
  apply Prim2SF_nan_inv. rewrite FloatAxioms.sub_spec.
  change (FloatOps.Prim2SF nan) with SpecFloat.S754_nan.
  by destruct (FloatOps.Prim2SF x).
Qed.

Lemma mul_nan_l x : nan * x = nan.
Proof.
  apply Prim2SF_nan_inv. rewrite FloatAxioms.mul_spec.
  change (FloatOps.Prim2SF nan) with SpecFloat.S754_nan.
  by destruct (FloatOps.Prim2SF x).
Qed.

Lemma div_nan_l x : nan / x = nan.
Proof.
  apply Prim2SF_nan_inv. rewrite FloatAxioms.div_spec.
  change (FloatOps.Prim2SF nan) with SpecFloat.S754_nan.
  by destruct (FloatOps.Prim2SF x).
Qed.

Lemma sqrt_nan : sqrt nan = nan.
Proof. reflexivity. Qed.

Lemma m2_update_nan_value a : m2 (update a nan) = nan.
Proof. unfold update. cbn [m2]. by rewrite sub_nan_l, mul_nan_l, add_nan_r. Qed.

Lemma m2_update_nan_m2 a v : m2 a = nan -> m2 (update a v) = nan.
Proof. intros H. unfold update. cbn [m2]. by rewrite H, add_nan_l. Qed.

Lemma m2_fold_nan vs : forall a, m2 a = nan -> m2 (fold_left update vs a) = nan.
Proof.
  induction vs as [|v vs IH]; intros a H; simpl; [done|].
  by apply IH, m2_update_nan_m2.
Qed.

Lemma m2_fold_In_nan vs : forall a, In nan vs -> m2 (fold_left update vs a) = nan.
Proof.
  induction vs as [|v vs IH]; intros a Hin; simpl; [done|].
  destruct Hin as [->|Hin]; [|by apply IH].
  apply m2_fold_nan, m2_update_nan_value.
Qed.

(** X2. A NaN among the values fed poisons the aggregate: whatever else
    is fed, before or after, [ValueFloat] is NaN. *)
Theorem stddev_nan_input (ss : list slice) :
  In nan (values ss) -> stddev ss = nan.
Proof.
  intros Hin. unfold stddev, ValueFloat, aggregate.
  rewrite fold_Do_values.
  destruct (n _ <? 2); [done|].
  by rewrite (m2_fold_In_nan _ _ Hin), div_nan_l.
Qed.

Lemma stddev_nan_input_witness : stddev [Floats [1; nan; 3]; Ints [4]%Z] = nan.
Proof.
  apply (stddev_nan_input [Floats [1; nan; 3]; Ints [4]%Z]).
  simpl. right. left. reflexivity.
Defined.

End StddevMore.

(** *** The storage source *)
Section SourceRuns.
Import source.
Local Open Scope Z_scope.
Context {Err Block ReadSpec DatasetID Transformation Reader : Type}.
Variable Read : Reader -> ReadSpec -> Time -> Time -> Reader * (Err + list Block).

Abbreviation Src' := (@storageSource ReadSpec DatasetID Transformation Reader).
Abbreviation Ev' := (@event Err Block DatasetID Transformation).
Abbreviation NextR' := (Next Read).
Abbreviation RunR' := (Run Read).

Lemma advance_currentTime (s : Src') r :
  is_int64 (currentTime s) ->
  0 <= Every (window s) ->
  currentTime s <= Stop (bounds s) ->
  Stop (bounds s) + Every (window s) < 2 ^ 63 ->
  currentTime (advance s r) = currentTime s + Every (window s).
Proof.
  intros Hc He Hle Hs. cbn [advance currentTime]. apply wrap64_small.
  unfold is_int64 in *. lia.
Qed.

(** X3. [Run] returns: with a positive [every] and [bounds.Stop + every]
    within [int64], the loop ends after at most
    [bounds.Stop - currentTime + 1] batches (none when the current time is
    already past the bounds). *)
Theorem Run_returns (s : Src') : forall fuel,
  is_int64 (currentTime s) ->
  0 < Every (window s) ->
  Stop (bounds s) + Every (window s) < 2 ^ 63 ->
  (Z.to_nat (Stop (bounds s) - currentTime s + 1) < fuel)%nat ->
  (RunR' fuel s).2 = true.
Proof.
  intros fuel. revert s. induction fuel as [|fuel IH]; intros s Hc He Hs Hf; [lia|].
  destruct (Next_inv Read s) as [[Hlt HN]|[(Hle & r & e & HR & HN)|(Hle & r & bi & HR & HN)]].
  - by rewrite (Run_stop _ _ _ _ _ _ _ HN).
  - by rewrite (Run_stop _ _ _ _ _ _ _ HN).
  - rewrite (Run_ok _ _ _ _ _ _ _ HN). cbn [snd].
    assert (currentTime (advance s r) = currentTime s + Every (window s)) as Hadv
      by (apply advance_currentTime; [exact Hc | lia ..]).
    apply IH.
    + rewrite Hadv. unfold is_int64 in *. lia.
    + exact He.
    + exact Hs.
    + rewrite Hadv. cbn [advance bounds window]. lia.
Qed.

(** X4. [Run] does not return when [every] is zero, the current time is
    within the bounds and the reader never fails: every round reads the
    same window again. *)
Theorem Run_spins_on_zero_every (s : Src') : forall fuel,
  is_int64 (currentTime s) ->
  Every (window s) = 0 ->
  currentTime s <= Stop (bounds s) ->
  (forall r rs a b, exists r' bi, Read r rs a b = (r', inr bi)) ->
  (RunR' fuel s).2 = false.
Proof.
  intros fuel. revert s. induction fuel as [|fuel IH]; intros s Hc He Hle Hread; [done|].
  destruct (Next_inv Read s) as [[Hlt HN]|[(_ & r & e & HR & HN)|(_ & r & bi & HR & HN)]].
  - lia.
  - destruct (Hread (reader s) (readSpec s)
                (wrap64 (currentTime s - Period (window s))) (currentTime s))
      as (r' & bi & HR').
    rewrite HR in HR'. discriminate.
  - rewrite (Run_ok _ _ _ _ _ _ _ HN). cbn [snd].
    assert (currentTime (advance s r) = currentTime s) as Hadv.
    { cbn [advance currentTime]. rewrite He, Z.add_0_r. by apply wrap64_small. }
    apply IH; [by rewrite Hadv | exact He | by rewrite Hadv | exact Hread].
Qed.

Lemma no_finish_forward (s : Src') (blocks : list Block) mark :
  Forall (fun ev : Ev' => is_finish ev = false) (forward s blocks mark).
Proof.
  unfold forward. apply Forall_app. split.
  - apply Forall_flat_map_intro. intros b. apply Forall_flat_map_intro.
    intros t. by repeat constructor.
  - by apply Forall_map_intro.
Qed.

(** X5. When [Run] returns, the last thing it did is to call [Finish]
    once on every subscriber, in the order they were added, and it called
    [Finish] on nobody before that. *)
Theorem Run_finishes_last (s : Src') : forall fuel tr,
  RunR' fuel s = (tr, true) ->
  exists pre, tr = pre ++ finish_all s /\
              Forall (fun ev => is_finish ev = false) pre.
Proof.
  intros fuel. revert s. induction fuel as [|fuel IH]; intros s tr HR; [discriminate|].
  destruct (Next_inv Read s) as [[Hlt HN]|[(Hle & r & e & _ & HN)|(Hle & r & bi & _ & HN)]].
  - rewrite (Run_stop _ _ _ _ _ _ _ HN) in HR. injection HR as <-.
    exists []. by split.
  - rewrite (Run_stop _ _ _ _ _ _ _ HN) in HR. injection HR as <-.
    eexists [_; _]. split; [reflexivity|]. by repeat constructor.
  - rewrite (Run_ok _ _ _ _ _ _ _ HN) in HR. injection HR as <- Hret.
    destruct (IH (advance s r) (RunR' fuel (advance s r)).1) as (pre & Hpre & Hno).
    { rewrite <- Hret. apply surjective_pairing. }
    exists ([EvRead (wrap64 (currentTime s - Period (window s))) (currentTime s)]
              ++ forward s bi (currentTime s) ++ pre).
    split.
    + rewrite Hpre. cbn [advance]. unfold finish_all. cbn [ts id advance].
      by rewrite <- !app_assoc.
    + apply Forall_app. split; [by repeat constructor|].
      apply Forall_app. split; [apply no_finish_forward | exact Hno].
Qed.

(** X6. No mark passed to [UpdateWatermark] is above [bounds.Stop]. *)
Theorem watermarks_within_bounds (s : Src') fuel :
  Forall (fun m => m <= Stop (bounds s)) (watermarks (RunR' fuel s).1).
Proof.
  revert s. induction fuel as [|fuel IH]; intros s; [constructor|].
  destruct (Next_inv Read s) as [[Hlt HN]|[(Hle & r & e & HR & HN)|(Hle & r & bi & HR & HN)]].
  - rewrite (Run_stop _ _ _ _ _ _ _ HN). cbn [fst app].
    rewrite watermarks_finish_all. constructor.
  - rewrite (Run_stop _ _ _ _ _ _ _ HN). cbn [fst].
    rewrite watermarks_app, watermarks_finish_all. constructor.
  - rewrite (Run_ok _ _ _ _ _ _ _ HN). cbn [fst].
    rewrite !watermarks_app, watermarks_forward. cbn [watermarks omap app].
    apply Forall_app_2; [constructor|].
    apply Forall_app_2; [by apply Forall_map_intro | apply (IH (advance s r))].
Qed.

(** X7. With [every >= 0] and no wrap-around, the [i]-th read of a run
    asks for the window that stops at [currentTime + i * every] and
    starts [period] before its stop (as an [int64]). *)
Theorem reads_progress (s : Src') : forall fuel i a b,
  is_int64 (currentTime s) ->
  0 <= Every (window s) ->
  Stop (bounds s) + Every (window s) < 2 ^ 63 ->
  reads (RunR' fuel s).1 !! i = Some (a, b) ->
  b = currentTime s + Z.of_nat i * Every (window s) /\
  a = wrap64 (b - Period (window s)).
Proof.
  intros fuel. revert s. induction fuel as [|fuel IH]; intros s i a b Hc He Hs Hi; [done|].
  destruct (Next_inv Read s) as [[Hlt HN]|[(Hle & r & e & HR & HN)|(Hle & r & bi & HR & HN)]].
  - rewrite (Run_stop _ _ _ _ _ _ _ HN) in Hi. cbn [fst app] in Hi.
    by rewrite reads_finish_all in Hi.
  - rewrite (Run_stop _ _ _ _ _ _ _ HN) in Hi. cbn [fst] in Hi.
    rewrite reads_app, reads_finish_all in Hi. cbn in Hi.
    destruct i as [|i]; [|done]. injection Hi as <- <-. split; [lia | done].
  - rewrite (Run_ok _ _ _ _ _ _ _ HN) in Hi. cbn [fst] in Hi.
    rewrite !reads_app, reads_forward in Hi. cbn in Hi.
    destruct i as [|i].
    + injection Hi as <- <-. split; [lia | done].
    + cbn in Hi.
      assert (currentTime (advance s r) = currentTime s + Every (window s)) as Hadv
        by (apply advance_currentTime; [exact Hc | lia ..]).
      destruct (IH (advance s r) i a b) as [Hb Ha].
      * rewrite Hadv. unfold is_int64 in *. lia.
      * exact He.
      * exact Hs.
      * exact Hi.
      * rewrite Hadv in Hb. cbn [advance window] in Hb, Ha. split; [lia | exact Ha].
Qed.

End SourceRuns.

Section SourceRunExamples.
Import source.
Local Open Scope Z_scope.

Lemma Run_returns_witness :
  (Run empty_reader 40 (example_source (mkWindow 10 10) (mkBounds 0 45) 20)).2 = true.
Proof.
  apply (Run_returns empty_reader (example_source (mkWindow 10 10) (mkBounds 0 45) 20) 40).
  - unfold is_int64. simpl. lia.
  - simpl. lia.
  - simpl. lia.
  - vm_compute. lia.
Defined.

Lemma Run_spins_on_zero_every_witness :
  (Run empty_reader 7 (example_source (mkWindow 0 10) (mkBounds 0 45) 20)).2 = false.
Proof.
  apply (Run_spins_on_zero_every empty_reader
           (example_source (mkWindow 0 10) (mkBounds 0 45) 20) 7).
  - unfold is_int64. simpl. lia.
  - reflexivity.
  - simpl. lia.
  - intros r rs a b. exists r, []. reflexivity.
Defined.

Lemma Run_finishes_last_witness :
  exists pre,
    (Run empty_reader 5 (example_source (mkWindow 10 10) (mkBounds 0 45) 20)).1
    = pre ++ finish_all (example_source (mkWindow 10 10) (mkBounds 0 45) 20) /\
    Forall (fun ev => is_finish ev = false) pre.
Proof.
  apply (Run_finishes_last empty_reader
           (example_source (mkWindow 10 10) (mkBounds 0 45) 20) 5).
  vm_compute. reflexivity.
Defined.

Lemma reads_progress_witness :
  30 = currentTime (example_source (mkWindow 10 10) (mkBounds 0 45) 20)
       + Z.of_nat 1 * Every (window (example_source (mkWindow 10 10) (mkBounds 0 45) 20)) /\
  20 = wrap64 (30 - Period (window (example_source (mkWindow 10 10) (mkBounds 0 45) 20))).
Proof.
  apply (reads_progress empty_reader
           (example_source (mkWindow 10 10) (mkBounds 0 45) 20) 5 1%nat 20 30).
  - unfold is_int64. simpl. lia.
  - simpl. lia.
  - simpl. lia.
  - vm_compute. reflexivity.
Defined.

End SourceRunExamples.

Section StartFacts.
Import source.
Local Open Scope Z_scope.
Context {Err Block ReadSpec DatasetID Transformation Reader : Type}.
Variable Read : Reader -> ReadSpec -> Time -> Time -> Reader * (Err + list Block).

Lemma Next_with_Start (s : @storageSource ReadSpec DatasetID Transformation Reader) v :
  Next Read (with_Start s v)
  = (with_Start (Next Read s).1.1 v, (Next Read s).1.2, (Next Read s).2).
Proof.
  unfold Next. cbn [with_Start bounds Stop currentTime reader readSpec window].
  destruct (Stop (bounds s) <? currentTime s); [done|].
  by destruct (Read _ _ _ _) as [r [e|bi]].
Qed.

(** X19. A run does not depend on [bounds.Start]: the source never looks
    at the lower bound, and reads whatever window its current time and
    period give, also one that starts before the bounds. *)
Theorem Run_ignores_Start fuel :
  forall (s : @storageSource ReadSpec DatasetID Transformation Reader) v,
  Run Read fuel (with_Start s v) = Run Read fuel s.
Proof.
  induction fuel as [|fuel IH]; intros s v; [done|].
  cbn [Run]. rewrite Next_with_Start.
  destruct (Next Read s) as [[s' evs] [[blocks mark] ok]]. cbn [fst snd].
  destruct ok; [|done]. by rewrite IH.
Qed.
End StartFacts.


Section RegistryFacts.
Import source.
Context {CreateSource : Type}.
Abbreviation Reg := (gmap string (option CreateSource)).

Lemma register_fold_None (regs : list (string * CreateSource)) :
  fold_left (fun acc kc => reg ← acc; RegisterSource reg kc.1 (Some kc.2))
            regs None = None.
Proof. induction regs as [|kc regs IH]; simpl; [done | exact IH]. Qed.

Lemma RegisterSource_Some (reg reg' : Reg) k c :
  RegisterSource reg k c = Some reg' <-> free reg k /\ reg' = <[k := c]> reg.
Proof.
  unfold RegisterSource, free.
  destruct (reg !! k) as [[c'|]|]; split; try (intros [= <-]); try (intros [[?|?] ?]);
    try done; try (by subst); auto.
Qed.

Lemma register_all_sound (regs : list (string * CreateSource)) : forall (reg0 reg : Reg),
  register_all regs reg0 = Some reg ->
  NoDup regs.*1 /\
  (forall k, k ∈ regs.*1 -> free reg0 k) /\
  (forall k c, (k, c) ∈ regs -> reg !! k = Some (Some c)) /\
  (forall k, k ∉ regs.*1 -> reg !! k = reg0 !! k).
Proof.
  unfold register_all.
  induction regs as [|[k c] regs IH]; intros reg0 reg H; simpl in H.
  - injection H as <-. split; [apply NoDup_nil_2|]. split; [|split; [|done]].
    + intros k Hk. by apply elem_of_nil in Hk.
    + intros k c Hk. by apply elem_of_nil in Hk.
  - destruct (RegisterSource reg0 k (Some c)) as [reg1|] eqn:HR;
      [|by rewrite register_fold_None in H].
    apply RegisterSource_Some in HR as [Hfree ->].
    apply IH in H as (Hnd & Hfr & Hin & Hout).
    assert (k ∉ regs.*1) as Hk.
    { intros Hk. destruct (Hfr k Hk) as [E|E]; by rewrite lookup_insert_eq in E. }
    repeat split.
    + cbn. by constructor.
    + intros k' Hk'. cbn in Hk'. apply elem_of_cons in Hk' as [->|Hk']; [done|].
      assert (k' <> k) by (intros ->; done).
      destruct (Hfr k' Hk') as [E|E]; rewrite lookup_insert_ne in E by done;
        [by left | by right].
    + intros k' c' Hk'. apply elem_of_cons in Hk' as [[= -> ->]|Hk']; [|by apply Hin].
      rewrite Hout by done. by rewrite lookup_insert_eq.
    + intros k' Hk'. cbn in Hk'. apply not_elem_of_cons in Hk' as [Hne Hk'].
      rewrite Hout by done. by rewrite lookup_insert_ne.
Qed.

Lemma register_all_complete (regs : list (string * CreateSource)) : forall (reg0 : Reg),
  NoDup regs.*1 ->
  (forall k, k ∈ regs.*1 -> free reg0 k) ->
  is_Some (register_all regs reg0).
Proof.
  unfold register_all.
  induction regs as [|[k c] regs IH]; intros reg0 Hnd Hfr; simpl; [done|].
  cbn in Hnd. apply NoDup_cons in Hnd as [Hk Hnd].
  assert (RegisterSource reg0 k (Some c) = Some (<[k := Some c]> reg0)) as ->.
  { apply RegisterSource_Some. split; [|done]. apply Hfr. cbn. by left. }
  apply IH; [done|]. intros k' Hk'.
  assert (k' <> k) by (intros ->; done).
  destruct (Hfr k') as [E|E]; [cbn; by right | |];
    [left | right]; by rewrite lookup_insert_ne.
Qed.

(** X8. Registering sources one after the other from an empty registry
    goes through without a panic exactly when no two of them have the same
    procedure kind; and then every kind is bound to the constructor that
    was registered for it. *)
Theorem register_all_NoDup (regs : list (string * CreateSource)) :
  (is_Some (register_all regs ∅) <-> NoDup regs.*1) /\
  (forall reg k c, register_all regs ∅ = Some reg -> (k, c) ∈ regs ->
                   reg !! k = Some (Some c)).
Proof.
  split; [split|].
  - intros [reg H]. by apply register_all_sound in H as (? & _).
  - intros Hnd. apply register_all_complete; [done|]. intros k _. by left.
  - intros reg k c H Hin. apply register_all_sound in H as (_ & _ & Hl & _). by apply Hl.
Qed.

End RegistryFacts.

Lemma register_all_NoDup_witness :
  is_Some (source.register_all [("select", 1%nat); ("range", 2%nat)] ∅).
Proof.
  apply (proj2 (proj1 (register_all_NoDup [("select", 1%nat); ("range", 2%nat)]))).
  cbn. compute_done.
Defined.


(** *** toHTTP *)
Section ReadArgsFacts.
Import to_http.
Local Open Scope string_scope.
Local Open Scope Z_scope.

Lemma fold_append_TagColumns l : forall o,
  fold_left (fun o c => set_TagColumns (TagColumns o ++ [c])%list o) l o
  = set_TagColumns (TagColumns o ++ l)%list o.
Proof.
  induction l as [|c l IH]; intros o; simpl.
  - rewrite app_nil_r. by destruct o.
  - rewrite IH. unfold set_TagColumns. cbn. by rewrite <- app_assoc.
Qed.

Lemma fold_append_to_ValueColumns l : forall o,
  fold_left (fun o c => set_TagColumns (ValueColumns o ++ [c])%list o) l o
  = match l with
    | [] => o
    | _ => set_TagColumns (ValueColumns o ++ [List.last l ""])%list o
    end.
Proof.
  induction l as [|c l IH]; intros o; [done|].
  cbn [fold_left]. rewrite IH. destruct l as [|c' l]; [done|].
  unfold set_TagColumns. cbn [ValueColumns]. reflexivity.
Qed.

(** What a successful [ReadArgs] leaves in the receiver, field by field. *)
Lemma ReadArgs_ok o args o' :
  ReadArgs o args = (o', None) ->
  exists addr nm method okm timeout okt tc oktc tags oktag vals okv,
    GetRequiredString args "addr" = inr addr /\
    GetRequiredString args "name" = inr nm /\
    GetString args "method" = inr (method, okm) /\
    GetDuration args "timeout" = inr (timeout, okt) /\
    GetString args "time_column" = inr (tc, oktc) /\
    GetArray_String args "tag_columns" = inr (tags, oktag) /\
    GetArray_String args "value_columns" = inr (vals, okv) /\
    o' = {| Addr := addr;
            Method := ToUpper (if okm then method else "POST");
            Name := nm;
            Headers := <["Content-Type" := "application/vnd.influx"]>
                         (<["User-Agent" := DefaultToHTTPUserAgent]> ∅);
            URLParams := URLParams o;
            Timeout := if okt then timeout else DefaultToHTTPTimeout;
            NoKeepAlive := NoKeepAlive o;
            TimeColumn := if oktc then tc else DefaultTimeColLabel;
            TagColumns :=
              if negb okv || (length vals =? 0)%nat
              then (if oktag then sort_Strings tags else [])
              else sort_Strings [List.last vals ""];
            ValueColumns :=
              if negb okv || (length vals =? 0)%nat then [DefaultValueColLabel] else [] |}.
Proof.
  unfold ReadArgs.
  destruct (GetRequiredString args "addr") as [?|addr]; [discriminate|].
  destruct (GetRequiredString args "name") as [?|nm]; [discriminate|].
  destruct (GetString args "method") as [?|[method okm]]; [discriminate|].
  destruct (GetDuration args "timeout") as [?|[timeout okt]]; [discriminate|].
  destruct (GetString args "time_column") as [?|[tc oktc]]; [discriminate|].
  destruct (GetArray_String args "tag_columns") as [?|[tags oktag]]; [discriminate|].
  destruct (GetArray_String args "value_columns") as [?|[vals okv]]; [discriminate|].
  intros [= <-].
  exists addr, nm, method, okm, timeout, okt, tc, oktc, tags, oktag, vals, okv.
  repeat (split; [reflexivity|]).
  rewrite fold_append_to_ValueColumns, fold_append_TagColumns.
  destruct okv, vals as [|v vals], okm, okt, oktc, oktag; reflexivity.
Qed.

Lemma upper_ascii_idem c : upper_ascii (upper_ascii c) = upper_ascii c.
Proof. destruct c as [[] [] [] [] [] [] [] []]; reflexivity. Qed.

Lemma ToUpper_idem s : ToUpper (ToUpper s) = ToUpper s.
Proof. induction s as [|c s IH]; simpl; [done|]. by rewrite upper_ascii_idem, IH. Qed.



(** [sort.Strings] sorts. *)
Lemma insert_sorted_Permutation x l : Permutation (x :: l) (insert_sorted x l).
Proof.
  induction l as [|y l IH]; simpl; [done|].
  destruct (String.leb x y); [done|].
  rewrite Permutation_swap. by constructor.
Qed.

Lemma sort_Strings_Permutation l : Permutation l (sort_Strings l).
Proof.
  induction l as [|x l IH]; simpl; [done|].
  rewrite <- insert_sorted_Permutation. by constructor.
Qed.

Lemma insert_sorted_Sorted x l :
  Sorted string_le l -> Sorted string_le (insert_sorted x l).
Proof.
  induction 1 as [|y l Hs IH Hd]; simpl; [repeat constructor|].
  destruct (String.leb x y) eqn:E.
  - constructor; [by constructor | by constructor].
  - constructor; [exact IH|].
    assert (string_le y x) as Hyx.
    { destruct (String.leb_total x y) as [H|H]; [congruence | exact H]. }
    destruct l as [|z l]; simpl; [by constructor|].
    destruct (String.leb x z); constructor; [exact Hyx|].
    by inversion Hd.
Qed.

Lemma sort_Strings_Sorted l : Sorted string_le (sort_Strings l).
Proof.
  induction l as [|x l IH]; simpl; [constructor | by apply insert_sorted_Sorted].
Qed.



(** X11. Whenever [value_columns] is supplied and non-empty, [ReadArgs]
    leaves [ValueColumns] empty and [TagColumns] holding the last supplied
    value column alone, whatever [tag_columns] was. *)
Theorem ReadArgs_value_columns_lost (o o' : ToHTTPOpSpec) (args : gmap string Value) v vals :
  ReadArgs o args = (o', None) ->
  args !! "value_columns" = Some (VStrings (v :: vals)) ->
  ValueColumns o' = [] /\ TagColumns o' = [List.last (v :: vals) ""].
Proof.
  intros H Hv. apply ReadArgs_ok in H
    as (addr & nm & method & okm & timeout & okt & tc & oktc & tags' & oktag & vals' & okv
        & _ & _ & _ & _ & _ & _ & Hvals & ->).
  cbn [TagColumns ValueColumns].
  unfold GetArray_String in Hvals. rewrite Hv in Hvals. injection Hvals as <- <-.
  done.
Qed.

Lemma ReadArgs_value_columns_lost_witness :
  ValueColumns (ReadArgs new_ToHTTPOpSpec
                  (<["value_columns" := VStrings ["b"; "a"]]> s6_args)).1 = [] /\
  TagColumns (ReadArgs new_ToHTTPOpSpec
                (<["value_columns" := VStrings ["b"; "a"]]> s6_args)).1
    = [List.last ["b"; "a"] ""].
Proof.
  apply (ReadArgs_value_columns_lost new_ToHTTPOpSpec _
           (<["value_columns" := VStrings ["b"; "a"]]> s6_args) "b" ["a"]).
  - vm_compute. reflexivity.
  - reflexivity.
Defined.

(** X12. A successful [ReadArgs] overwrites every field of its receiver
    but [URLParams] and [NoKeepAlive], which it never touches: on another
    receiver the same arguments are read without error into the same
    fields (what the receiver held in [TagColumns] and [ValueColumns] is
    dropped). *)
Theorem ReadArgs_receiver (o1 o2 o1' : ToHTTPOpSpec) (args : gmap string Value) :
  ReadArgs o1 args = (o1', None) ->
  ReadArgs o2 args =
    ({| Addr := Addr o1'; Method := Method o1'; Name := Name o1';
        Headers := Headers o1'; URLParams := URLParams o2; Timeout := Timeout o1';
        NoKeepAlive := NoKeepAlive o2; TimeColumn := TimeColumn o1';
        TagColumns := TagColumns o1'; ValueColumns := ValueColumns o1' |}, None) /\
  URLParams o1' = URLParams o1 /\ NoKeepAlive o1' = NoKeepAlive o1.
Proof.
  intros H. apply ReadArgs_ok in H
    as (addr & nm & method & okm & timeout & okt & tc & oktc & tags & oktag & vals & okv
        & Ha & Hn & Hm & Ht & Htc & Htags & Hvals & ->).
  split; [|done].
  unfold ReadArgs. rewrite Ha, Hn, Hm, Ht, Htc, Htags, Hvals.
  rewrite fold_append_to_ValueColumns, fold_append_TagColumns.
  destruct okv, vals as [|v vals], okm, okt, oktc, oktag; reflexivity.
Qed.

Lemma ReadArgs_receiver_witness :
  let o1' := (ReadArgs new_ToHTTPOpSpec s6_args).1 in
  let o2 := set_TagColumns ["old"] (set_ValueColumns ["stale"] new_ToHTTPOpSpec) in
  ReadArgs o2 s6_args =
    ({| Addr := Addr o1'; Method := Method o1'; Name := Name o1';
        Headers := Headers o1'; URLParams := URLParams o2; Timeout := Timeout o1';
        NoKeepAlive := NoKeepAlive o2; TimeColumn := TimeColumn o1';
        TagColumns := TagColumns o1'; ValueColumns := ValueColumns o1' |}, None) /\
  URLParams o1' = URLParams new_ToHTTPOpSpec /\
  NoKeepAlive o1' = NoKeepAlive new_ToHTTPOpSpec.
Proof.
  apply (ReadArgs_receiver new_ToHTTPOpSpec
           (set_TagColumns ["old"] (set_ValueColumns ["stale"] new_ToHTTPOpSpec))
           (ReadArgs new_ToHTTPOpSpec s6_args).1 s6_args).
  vm_compute. reflexivity.
Defined.

End ReadArgsFacts.

Section ProcessFacts.
Import to_http.
Local Open Scope string_scope.
Local Open Scope Z_scope.

(** What a call of [Process] that sent a request went through. *)
Lemma Process_sent http spec b req r :
  Process http spec b = (Some req, r) ->
  exists idx body,
    labels_of (BlockCols b) !! TimeColumn (Spec spec) = Some idx /\
    IdxTyp idx = TTime /\
    encode_block (Spec spec) b = Some body /\
    NewRequest http (Method (Spec spec)) (Addr (Spec spec)) = None /\
    req = {| ReqMethod := Method (Spec spec); ReqURL := Addr (Spec spec);
             ReqBody := body;
             ReqTimeout := if (Timeout (Spec spec) <=? 0)%Z
                           then Some (Timeout (Spec spec)) else None;
             ReqKeepAlive := negb (NoKeepAlive (Spec spec)) |}.
Proof.
  unfold Process. intros HP.
  destruct (labels_of (BlockCols b) !! TimeColumn (Spec spec)) as [idx|]; [|discriminate].
  destruct (DataType_eqb (IdxTyp idx) TTime) eqn:Hty; [|discriminate].
  destruct (encode_block (Spec spec) b) as [body|]; [|discriminate].
  destruct (NewRequest http (Method (Spec spec)) (Addr (Spec spec))); [discriminate|].
  exists idx, body. repeat split; try done.
  - by destruct (IdxTyp idx).
  - cbn [negb] in HP. by destruct (Do http _); injection HP as <-.
Qed.

(** X13. A positive timeout, such as the default of one second, is never
    put on the request: [Process] gives the request a context timeout only
    when the timeout is zero or negative. *)
Theorem Process_positive_timeout_unused http spec b req r :
  Process http spec b = (Some req, r) ->
  0 < Timeout (Spec spec) ->
  ReqTimeout req = None.
Proof.
  intros HP Hpos. apply Process_sent in HP as (idx & body & _ & _ & _ & _ & ->).
  cbn [ReqTimeout]. destruct (Z.leb_spec (Timeout (Spec spec)) 0); [lia | done].
Qed.

Lemma Process_positive_timeout_unused_witness : ReqTimeout s6_request = None.
Proof.
  apply (Process_positive_timeout_unused (server 204 "204 No Content" "")
           s6_spec s6_block s6_request (Returned None)).
  - vm_compute. reflexivity.
  - vm_compute. reflexivity.
Defined.

(** X14. An operation built by [createToHTTPOpSpec] has [NoKeepAlive]
    false and no URL parameters, whatever the arguments; its requests go
    through the shared keep-alive client. *)
Theorem createToHTTPOpSpec_keep_alive args o http b req r :
  createToHTTPOpSpec args = inr o ->
  Process http (mkToHTTPProcedureSpec o) b = (Some req, r) ->
  NoKeepAlive o = false /\ URLParams o = ∅ /\ ReqKeepAlive req = true.
Proof.
  unfold createToHTTPOpSpec. intros Hc HP.
  destruct (ReadArgs new_ToHTTPOpSpec args) as [o' [e|]] eqn:HR; [discriminate|].
  injection Hc as ->.
  destruct (ReadArgs_receiver _ new_ToHTTPOpSpec _ _ HR) as (_ & Hu & Hk).
  apply Process_sent in HP as (idx & body & _ & _ & _ & _ & ->).
  cbn [ReqKeepAlive Spec]. rewrite Hk. done.
Qed.

Lemma createToHTTPOpSpec_keep_alive_witness :
  NoKeepAlive (Spec s6_spec) = false /\ URLParams (Spec s6_spec) = ∅ /\
  ReqKeepAlive s6_request = true.
Proof.
  apply (createToHTTPOpSpec_keep_alive s6_args (Spec s6_spec)
           (server 204 "204 No Content" "") s6_block s6_request (Returned None)).
  - vm_compute. reflexivity.
  - vm_compute. reflexivity.
Defined.

(** The [labels] map knows exactly the labels of the columns. *)
Lemma labels_fold_lookup cols : forall k (m0 : gmap string idxType) l idx,
  fold_left (fun m ic => <[Label ic.2 := mkIdxType ic.1 (Typ ic.2)]> m)
            (zip (seq k (length cols)) cols) m0 !! l = Some idx ->
  m0 !! l = Some idx \/
  exists i col, cols !! i = Some col /\ Label col = l /\
                idx = mkIdxType (k + i) (Typ col).
Proof.
  induction cols as [|c cols IH]; intros k m0 l idx H; simpl in H; [by left|].
  apply IH in H as [H|(i & col & Hi & Hl & ->)].
  - destruct (decide (Label c = l)) as [<-|Hne].
    + rewrite lookup_insert_eq in H. injection H as <-.
      right. exists 0%nat, c. by rewrite Nat.add_0_r.
    + rewrite lookup_insert_ne in H by done. by left.
  - right. exists (S i), col. repeat split; [done..|]. f_equal. lia.
Qed.

Lemma labels_fold_None cols : forall k (m0 : gmap string idxType) l,
  fold_left (fun m ic => <[Label ic.2 := mkIdxType ic.1 (Typ ic.2)]> m)
            (zip (seq k (length cols)) cols) m0 !! l = None ->
  m0 !! l = None /\ Forall (fun col => Label col <> l) cols.
Proof.
  induction cols as [|c cols IH]; intros k m0 l H; simpl in H; [by split|].
  apply IH in H as [H Hall].
  destruct (decide (Label c = l)) as [<-|Hne].
  - by rewrite lookup_insert_eq in H.
  - rewrite lookup_insert_ne in H by done. split; [done | by constructor].
Qed.

(** X15. [Process] sends a request only when the block has a column with
    the label of the time column and of type time; on a block with no
    column of that label it returns "Could not get time column" and sends
    nothing. *)
Theorem Process_time_column http spec b :
  (forall req r, Process http spec b = (Some req, r) ->
     exists i col, BlockCols b !! i = Some col /\
                   Label col = TimeColumn (Spec spec) /\ Typ col = TTime) /\
  (Forall (fun col => Label col <> TimeColumn (Spec spec)) (BlockCols b) ->
   Process http spec b = (None, Returned (Some "Could not get time column"))).
Proof.
  split.
  - intros req r HP. apply Process_sent in HP as (idx & body & Hl & Hty & _).
    apply labels_fold_lookup in Hl as [Hl|(i & col & Hi & Hlab & ->)]; [done|].
    by exists i, col.
  - intros Hall. unfold Process.
    destruct (labels_of (BlockCols b) !! TimeColumn (Spec spec)) as [idx|] eqn:Hl; [|done].
    apply labels_fold_lookup in Hl as [Hl|(i & col & Hi & Hlab & ->)]; [done|].
    rewrite Forall_forall in Hall. exfalso. apply (Hall col); [|done].
    by eapply list_elem_of_lookup_2.
Qed.

Lemma Process_time_column_witness :
  Process (server 204 "204 No Content" "") s6_spec no_time_block
  = (None, Returned (Some "Could not get time column")).
Proof.
  apply (proj2 (Process_time_column (server 204 "204 No Content" "") s6_spec no_time_block)).
  repeat constructor. vm_compute. discriminate.
Defined.

(** [Process] encodes reader by reader. *)
Lemma column_name spec er m ic m' :
  column spec er m ic = Some m' -> name m' = name m.
Proof.
  unfold column. destruct ic as [i col]. intros Hcol.
  repeat case_match; simplify_option_eq; done.
Qed.

Lemma fold_column_name spec er cols : forall acc m',
  fold_left (fun acc ic => m ← acc; column spec er m ic) cols acc = Some m' ->
  exists m, acc = Some m /\ name m' = name m.
Proof.
  induction cols as [|ic cols IH]; intros acc m' H; simpl in H; [by exists m'|].
  apply IH in H as (m1 & H1 & ->).
  destruct acc as [m|]; [|done]. simpl in H1.
  exists m. split; [done|]. by eapply column_name.
Qed.

Lemma encode_reader_name spec m er m' :
  encode_reader spec m er = Some m' -> name m' = name m.
Proof.
  unfold encode_reader. intros H.
  apply fold_column_name in H as (m1 & [= <-] & ->). done.
Qed.

Lemma encode_fold spec readers : forall acc m' out',
  fold_left
    (fun acc er => '(m, out) ← acc; m' ← encode_reader spec m er;
                   Some (m', (out ++ [m'])%list))
    readers acc = Some (m', out') ->
  exists m out, acc = Some (m, out) /\
    length out' = (length out + length readers)%nat /\
    name m' = name m /\
    (Forall (fun x => name x = name m) out -> Forall (fun x => name x = name m) out').
Proof.
  induction readers as [|er readers IH]; intros acc m' out' H; simpl in H.
  - exists m', out'. repeat split; [done | simpl; lia | done..].
  - apply IH in H as (m1 & out1 & H1 & Hlen & Hname & Hall).
    destruct acc as [[m out]|]; [|done]. simpl in H1.
    destruct (encode_reader spec m er) as [m2|] eqn:Her; [|done].
    simpl in H1. injection H1 as <- <-.
    apply encode_reader_name in Her.
    exists m, out. split; [done|]. split.
    { rewrite Hlen, length_app. simpl. lia. }
    split; [congruence|].
    intros Hout. rewrite <- Her. apply Hall. rewrite Her.
    apply Forall_app_2; [done | by constructor].
Qed.



End ProcessFacts.
Section SearchFacts.
Import to_http.
Local Open Scope string_scope.

Lemma string_compare_trans s1 : forall s2 s3,
  (s1 ?= s2)%string <> Gt -> (s2 ?= s3)%string <> Gt -> (s1 ?= s3)%string <> Gt.
Proof.
  induction s1 as [|c1 s1 IH]; intros [|c2 s2] [|c3 s3]; simpl; try done.
  unfold Ascii.compare.
  destruct (N.compare_spec (N_of_ascii c1) (N_of_ascii c2)) as [E12|L12|G12];
    destruct (N.compare_spec (N_of_ascii c2) (N_of_ascii c3)) as [E23|L23|G23];
    destruct (N.compare_spec (N_of_ascii c1) (N_of_ascii c3)) as [E13|L13|G13];
    try done; try lia.
  apply IH.
Qed.

Lemma string_le_trans x y z : string_le x y -> string_le y z -> string_le x z.
Proof.
  unfold string_le, String.leb. intros Hxy Hyz.
  pose proof (string_compare_trans x y z) as H.
  destruct (x ?= y)%string, (y ?= z)%string, (x ?= z)%string; try done;
    exfalso; by apply H.
Qed.

Lemma string_le_refl x : string_le x x.
Proof. by destruct (String.leb_total x x). Qed.

(** The binary search of [sort.Search], on any interval it has fuel for. *)
Lemma Search_loop_spec (f : nat -> bool) (n : nat) :
  (forall a b, (a <= b < n)%nat -> f a = true -> f b = true) ->
  forall fuel i j, (i <= j <= n)%nat -> (j - i <= fuel)%nat ->
  let r := Search_loop fuel f i j in
  (i <= r <= j)%nat /\
  (forall k, (i <= k < r)%nat -> f k = false) /\
  ((r < j)%nat -> f r = true).
Proof.
  intros Hmono. induction fuel as [|fuel IH]; intros i j Hij Hfuel; cbn [Search_loop].
  - repeat split; lia.
  - destruct (Nat.ltb_spec i j) as [Hlt|Hge].
    2:{ repeat split; lia. }
    assert (i <= (i + j) / 2 < j)%nat as Hh.
    { split; [apply Nat.div_le_lower_bound; lia | apply Nat.Div0.div_lt_upper_bound; lia]. }
    set (h := ((i + j) / 2)%nat) in *.
    destruct (f h) eqn:Hfh.
    + destruct (IH i h) as (Hr & Hlow & Hhit); [lia..|].
      repeat split; [lia.. | exact Hlow |].
      intros Hrj. destruct (decide (Search_loop fuel f i h = h)) as [->|Hne]; [done|].
      apply Hhit. lia.
    + destruct (IH (h + 1)%nat j) as (Hr & Hlow & Hhit); [lia..|].
      repeat split; [lia.. | | exact Hhit].
      intros k Hk. destruct (decide (k <= h)%nat) as [Hkh|Hkh]; [|apply Hlow; lia].
      destruct (f k) eqn:Hfk; [|done].
      rewrite (Hmono k h) in Hfh; [done | lia | done].
Qed.

Lemma sort_Search_lt (f : nat -> bool) (n : nat) :
  (forall a b, (a <= b < n)%nat -> f a = true -> f b = true) ->
  (sort_Search n f < n)%nat <-> exists k, (k < n)%nat /\ f k = true.
Proof.
  intros Hmono. unfold sort_Search.
  destruct (Search_loop_spec f n Hmono n 0%nat n) as (Hr & Hlow & Hhit); [lia..|].
  split.
  - intros Hlt. exists (Search_loop n f 0 n). split; [done | by apply Hhit].
  - intros (k & Hk & Hfk).
    destruct (decide (Search_loop n f 0 n <= k)%nat) as [Hle|Hgt]; [lia|].
    rewrite Hlow in Hfk; [done | lia].
Qed.

Lemma StronglySorted_nth (a : list string) : StronglySorted string_le a ->
  forall i j, (i <= j < length a)%nat -> string_le (nth i a "") (nth j a "").
Proof.
  induction 1 as [|y a Hs IH Hall]; intros i j Hij; simpl in *; [lia|].
  destruct i as [|i], j as [|j]; try lia.
  - apply string_le_refl.
  - rewrite Forall_forall in Hall. apply Hall.
    apply list_elem_of_In, nth_In. lia.
  - apply IH. lia.
Qed.

(** X17. On a sorted slice the test
    [sort.SearchStrings(a, x) < len(a)] of [Process] holds exactly when
    some element of [a] is at or above [x]: it is not a membership test. *)
Theorem SearchStrings_bound (a : list string) (x : string) :
  Sorted string_le a ->
  (SearchStrings a x <? length a)%nat = existsb (String.leb x) a.
Proof.
  intros Hs. apply Sorted_StronglySorted in Hs; [|intros ???; apply string_le_trans].
  apply eq_true_iff_eq. rewrite Nat.ltb_lt, existsb_exists. unfold SearchStrings.
  rewrite sort_Search_lt.
  - split.
    + intros (k & Hk & Hf). exists (nth k a ""). split; [by apply nth_In | done].
    + intros (y & Hin & Hy). apply (In_nth _ _ "") in Hin as (k & Hk & <-). by exists k.
  - intros i j Hij Hi. eapply string_le_trans; [exact Hi|].
    by apply StronglySorted_nth.
Qed.

Lemma SearchStrings_bound_witness :
  (SearchStrings ["b"; "d"] "c" <? length ["b"; "d"])%nat
  = existsb (String.leb "c") ["b"; "d"].
Proof.
  apply (SearchStrings_bound ["b"; "d"] "c").
  repeat constructor.
Defined.

(** X18. With sorted column lists, a column that is neither the time
    column nor taken as a value becomes a tag exactly when its label is at
    or below some label of [tag_columns], listed or not (and it must then
    hold strings). *)
Theorem column_by_label_bound (spec : ToHTTPOpSpec) (er : ColReader)
    (m : httpOutputMetric) (i : nat) (col : ColMeta) :
  Sorted string_le (ValueColumns spec) ->
  Sorted string_le (TagColumns spec) ->
  Label col <> TimeColumn spec ->
  existsb (String.leb (Label col)) (ValueColumns spec) = false ->
  column spec er m (i, col) =
    if existsb (String.leb (Label col)) (TagColumns spec)
    then v ← Strings0 er i; Some (add_tag (Label col) v m)
    else Some m.
Proof.
  intros Hv Ht Hne Hval. unfold column.
  destruct (String.eqb_spec (Label col) (TimeColumn spec)); [done|].
  by rewrite !SearchStrings_bound, Hval.
Qed.

Lemma column_by_label_bound_witness :
  column (Spec s6_spec) host_reader (mkMetric [] [] "m" 0) (1%nat, host_col)
  = if existsb (String.leb (Label host_col)) (TagColumns (Spec s6_spec))
    then v ← Strings0 host_reader 1; Some (add_tag (Label host_col) v (mkMetric [] [] "m" 0))
    else Some (mkMetric [] [] "m" 0).
Proof.
  apply (column_by_label_bound (Spec s6_spec) host_reader (mkMetric [] [] "m" 0)
           1%nat host_col).
  - vm_compute. repeat constructor.
  - vm_compute. repeat constructor.
  - vm_compute. discriminate.
  - vm_compute. reflexivity.
Defined.

End SearchFacts.


Section KeysFacts.
Import to_http.
Local Open Scope string_scope.

Lemma column_no_time_key spec er m ic m' :
  column spec er m ic = Some m' -> no_time_key spec m -> no_time_key spec m'.
Proof.
  unfold column, no_time_key. destruct ic as [i col]. intros Hcol [Ht Hf].
  destruct (String.eqb_spec (Label col) (TimeColumn spec)) as [E|E].
  { simplify_option_eq. done. }
  repeat case_match; simplify_option_eq; cbn;
    (split; [try done | try done]);
    try (apply Forall_app_2; [done | by repeat constructor]).
Qed.

Lemma fold_column_no_time_key spec er cols : forall acc m',
  fold_left (fun acc ic => m ← acc; column spec er m ic) cols acc = Some m' ->
  (forall m, acc = Some m -> no_time_key spec m) -> no_time_key spec m'.
Proof.
  induction cols as [|ic cols IH]; intros acc m' H Hacc; simpl in H; [by apply Hacc|].
  apply IH in H; [done|]. intros m1 H1.
  destruct acc as [m|]; [|done]. simpl in H1.
  eapply column_no_time_key; [exact H1 | by apply Hacc].
Qed.

Lemma encode_reader_no_time_key spec m er m' :
  encode_reader spec m er = Some m' -> no_time_key spec m'.
Proof.
  unfold encode_reader. intros H. eapply fold_column_no_time_key; [exact H|].
  intros m1 [= <-]. split; constructor.
Qed.

Lemma encode_fold_Forall spec (Q : httpOutputMetric -> Prop) readers :
  (forall m er m', encode_reader spec m er = Some m' -> Q m') ->
  forall acc m' out',
  fold_left
    (fun acc er => '(m, out) ← acc; m' ← encode_reader spec m er;
                   Some (m', (out ++ [m'])%list))
    readers acc = Some (m', out') ->
  (forall m out, acc = Some (m, out) -> Forall Q out) -> Forall Q out'.
Proof.
  intros HQ. induction readers as [|er readers IH]; intros acc m' out' H Hacc; simpl in H.
  - by eapply Hacc.
  - eapply IH; [exact H|]. intros m1 out1 H1.
    destruct acc as [[m out]|]; [|done]. simpl in H1.
    destruct (encode_reader spec m er) as [m2|] eqn:Her; [|done].
    simpl in H1. injection H1 as <- <-.
    apply Forall_app_2; [by eapply Hacc | repeat constructor; by eapply HQ].
Qed.

(** X20. The time column is never encoded as a tag or as a field, even
    when [tag_columns] or [value_columns] list it: no metric of a request
    has a tag or a field under its label. *)
Theorem Process_time_column_not_a_key http spec b req r :
  Process http spec b = (Some req, r) ->
  Forall (no_time_key (Spec spec)) (ReqBody req).
Proof.
  intros HP. apply Process_sent in HP as (idx & body & _ & _ & He & _ & ->).
  cbn [ReqBody]. unfold encode_block in He.
  destruct (fold_left _ (Readers b) _) as [[m' out']|] eqn:Hf; [|done].
  simpl in He. injection He as <-.
  eapply encode_fold_Forall; [|exact Hf|].
  - intros m er m1. apply encode_reader_no_time_key.
  - intros m out [= <- <-]. constructor.
Qed.

Lemma Process_time_column_not_a_key_witness :
  Forall (no_time_key (Spec s6_spec)) (ReqBody s6_request).
Proof.
  apply (Process_time_column_not_a_key (server 204 "204 No Content" "")
           s6_spec s6_block s6_request (Returned None)).
  vm_compute. reflexivity.
Defined.

End KeysFacts.

